(** * MT5-WS-PIPELINE: the bridge sketch, the SQL sink and the dashboard hooks

    A shallow embedding of
    - [sql/schema.sql] (the [trades] and [positions] tables with their
      indexes),
    - [frontend/lib/supabase-client.ts] (row types and query helpers),
    - [frontend/hooks/useLivePositions.ts] and [useLiveTrades.ts]
      (the realtime state reducers), and
    - the Python bridge of the implementation plan ([detect_closes],
      [process_closed_tickets], [main_loop]),
    followed by the properties the design document states about them. *)

From Stdlib Require Import ZArith QArith Qminmax Qpower Lqa String.
From stdpp Require Import base option list gmap sets strings pretty.

Local Open Scope string_scope.
Local Open Scope list_scope.
Local Open Scope Z_scope.

(** ** Row types ([supabase-client.ts], "Database Types")

    [ticket], [type] and [id] are integer columns (BIGINT, INTEGER,
    BIGSERIAL); DECIMAL columns are rationals; TIMESTAMPTZ values are
    counted in microseconds. A column typed [T | null] is an [option]. *)

Definition Ticket := Z.
Definition Timestamp := Z.

Module Position.
Record t := mk {
  ticket : Ticket;
  symbol : string;
  type : Z;                     (* 0=buy, 1=sell *)
  volume : Q;
  price_open : Q;
  price_current : option Q;
  profit : option Q;
  swap : option Q;
  commission : option Q;
  comment : option string;
  updated_at : Timestamp
}.
End Position.

Inductive Action := OPEN | CLOSE.

Global Instance Action_eq_dec : EqDecision Action.
Proof. solve_decision. Defined.

Module Trade.
Record t := mk {
  id : Z;
  ticket : Ticket;
  action : Action;
  symbol : string;
  type : Z;
  volume : Q;
  price : Q;
  profit : option Q;            (* null for OPEN *)
  swap : option Q;
  commission : option Q;
  comment : option string;
  timestamp : Timestamp
}.
End Trade.

Inductive Status := healthy | offline | error.

Module BridgeStatus.
Record t := mk {
  id : Z;
  last_seen : Timestamp;
  status : Status;
  positions_count : Z;
  error_message : option string;
  updated_at : Timestamp
}.
End BridgeStatus.

(** ** Query helpers ([supabase-client.ts], "Database query helpers") *)

Module SupabaseClient.

(** What [await query] yields: the promise resolves to a
    [{ data, error }] pair, or rejects and the [await] throws. *)
Record PostgrestError := { message : string; code : string }.

Record Response (A : Type) := {
  data : option A;
  error : option PostgrestError
}.
Arguments data {A} _.
Arguments error {A} _.

Inductive Completion (A : Type) :=
| Return (v : A)
| Throw (reason : string).
Arguments Return {A} v.
Arguments Throw {A} reason.

Definition await {A B} (p : Completion A) (k : A → Completion B) : Completion B :=
  match p with
  | Return v => k v
  | Throw r => Throw r
  end.

(** [if (error) { console.error(..); return [] }  return data || []] *)
Definition fetchPositions (query : Completion (Response (list Position.t)))
  : Completion (list Position.t) :=
  await query (λ r,
    match error r with
    | Some _ => Return []
    | None => Return (default [] (data r))
    end).

(** Same body; [limit] only parameterises the query sent to the store. *)
Definition fetchRecentTrades (query : Z → Completion (Response (list Trade.t)))
    (limit : Z) : Completion (list Trade.t) :=
  await (query limit) (λ r,
    match error r with
    | Some _ => Return []
    | None => Return (default [] (data r))
    end).

(** [if (error) { console.error(..); return null }  return data] *)
Definition fetchBridgeStatus (query : Completion (Response BridgeStatus.t))
  : Completion (option BridgeStatus.t) :=
  await query (λ r,
    match error r with
    | Some _ => Return None
    | None => Return (data r)
    end).

(** The payload handed to a [postgres_changes] callback. *)
Record Payload (A : Type) := {
  eventType : string;
  new : A;
  old : A
}.
Arguments eventType {A} _.
Arguments new {A} _.
Arguments old {A} _.

End SupabaseClient.

(** ** [useLivePositions.ts]: the positions reducer *)

Module UseLivePositions.
Import SupabaseClient.

(** [prevPositions.some(p => p.ticket === newRecord.ticket)] *)
Definition some_ticket (k : Ticket) (l : list Position.t) : bool :=
  existsb (λ p, bool_decide (Position.ticket p = k)) l.

(** The function passed to [setPositions] inside
    [handleRealtimeUpdate]: the [switch (eventType)] on the previous
    list. *)
Definition handleRealtimeUpdate (payload : Payload Position.t)
    (prevPositions : list Position.t) : list Position.t :=
  let newRecord := new payload in
  let oldRecord := old payload in
  if decide (eventType payload = "INSERT") then
    let existsInsert := some_ticket (Position.ticket newRecord) prevPositions in
    if negb existsInsert then prevPositions ++ [newRecord] else prevPositions
  else if decide (eventType payload = "UPDATE") then
    (λ pos, if bool_decide (Position.ticket pos = Position.ticket newRecord)
            then newRecord else pos) <$> prevPositions
  else if decide (eventType payload = "DELETE") then
    filter (λ pos, Position.ticket pos ≠ Position.ticket oldRecord) prevPositions
  else prevPositions.

End UseLivePositions.

(** ** JavaScript numbers and [Array.prototype.slice]

    A [number] argument is a finite value (every finite double is a
    rational), an infinity or NaN. [slice] follows ECMA-262 §23.1.3.28:
    both bounds go through [ToIntegerOrInfinity], a negative bound counts
    from the end of the array. *)

Module JS.

Inductive number :=
| Finite (q : Q)
| PosInfinity
| NegInfinity
| NaN.

Inductive IntegerOrInfinity :=
| Int (z : Z)
| PlusInf
| MinusInf.

(** truncation toward zero *)
Definition truncate (q : Q) : Z := Z.quot (Qnum q) (Z.pos (Qden q)).

Definition ToIntegerOrInfinity (n : number) : IntegerOrInfinity :=
  match n with
  | NaN => Int 0
  | PosInfinity => PlusInf
  | NegInfinity => MinusInf
  | Finite q => Int (truncate q)
  end.

(** Clamp a relative index into [0 .. len]. *)
Definition clamp_index (len : Z) (rel : IntegerOrInfinity) : Z :=
  match rel with
  | MinusInf => 0
  | PlusInf => len
  | Int r => if r <? 0 then Z.max (len + r) 0 else Z.min r len
  end.

Definition slice {A} (O : list A) (start end_ : number) : list A :=
  let len := Z.of_nat (length O) in
  let k := clamp_index len (ToIntegerOrInfinity start) in
  let final := clamp_index len (ToIntegerOrInfinity end_) in
  let count := Z.max (final - k) 0 in
  take (Z.to_nat count) (drop (Z.to_nat k) O).

(** [a.length > L] *)
Definition length_gt {A} (a : list A) (L : number) : Prop :=
  match L with
  | Finite q => (q < inject_Z (Z.of_nat (length a)))%Q
  | NegInfinity => True
  | PosInfinity | NaN => False
  end.

(** [L >= 0] *)
Definition nonneg (L : number) : Prop :=
  match L with
  | Finite q => (0 <= q)%Q
  | PosInfinity => True
  | NegInfinity | NaN => False
  end.

(** The number of elements [slice(0, L)] may keep, as a count. *)
Definition entries (L : number) (len : nat) : nat :=
  match L with
  | Finite q => Z.to_nat (truncate q)
  | PosInfinity => len
  | NegInfinity | NaN => 0%nat
  end.

End JS.

(** ** [useLiveTrades.ts]: the trades reducer *)

Module UseLiveTrades.
Import SupabaseClient.

(** [useLiveTrades = (limit = 50)]: an omitted argument is 50. *)
Definition default_limit : JS.number := JS.Finite 50.

(** The state after [handleRealtimeUpdate(payload)]: [setTrades] is
    only called for an INSERT event. *)
Definition handleRealtimeUpdate (limit : JS.number) (payload : Payload Trade.t)
    (prevTrades : list Trade.t) : list Trade.t :=
  let newRecord := new payload in
  if decide (eventType payload = "INSERT") then
    let newTrades := newRecord :: prevTrades in
    JS.slice newTrades (JS.Finite 0) limit
  else prevTrades.

End UseLiveTrades.

(** ** The sink: [sql/schema.sql]

    [trades] has a BIGSERIAL primary key and, in the revision that
    declares one, a single UNIQUE index:
    [CREATE UNIQUE INDEX idx_trades_unique ON trades(ticket, action, timestamp)].
    [idx_trades_ticket_action ON trades(ticket, action)] is a plain
    [CREATE INDEX]; it constrains nothing. *)

Module Schema.

(** The columns an [INSERT INTO trades] supplies; [id] comes from the
    sequence and an omitted [timestamp] is [DEFAULT NOW()]. *)
Record NewTrade := {
  ticket : Ticket;
  action : Action;
  symbol : string;
  type : Z;
  volume : Q;
  price : Q;
  profit : option Q;
  swap : option Q;
  commission : option Q;
  comment : option string;
  timestamp : option Timestamp
}.

Record Trades := {
  rows : list Trade.t;
  next_id : Z
}.

Definition empty_trades : Trades := {| rows := []; next_id := 1 |}.

(** The key of [idx_trades_unique]. *)
Definition idx_trades_unique (r : Trade.t) : Ticket * Action * Timestamp :=
  (Trade.ticket r, Trade.action r, Trade.timestamp r).


Inductive InsertOutcome :=
| inserted (row : Trade.t)
| duplicate.                   (* unique_violation on idx_trades_unique *)

Definition new_row (now : Timestamp) (id : Z) (n : NewTrade) : Trade.t :=
  {| Trade.id := id;
     Trade.ticket := ticket n;
     Trade.action := action n;
     Trade.symbol := symbol n;
     Trade.type := type n;
     Trade.volume := volume n;
     Trade.price := price n;
     Trade.profit := profit n;
     Trade.swap := swap n;
     Trade.commission := commission n;
     Trade.comment := comment n;
     Trade.timestamp := default now (timestamp n) |}.

(** [INSERT INTO trades (...) VALUES (...)] at server time [now]: the
    sequence advances whether or not the row is accepted; a row whose
    unique key is already present is rejected and the table keeps its
    rows. *)
Definition insert_trade (now : Timestamp) (n : NewTrade) (tbl : Trades)
  : InsertOutcome * Trades :=
  let row := new_row now (next_id tbl) n in
  if bool_decide (idx_trades_unique row ∈ idx_trades_unique <$> rows tbl)
  then (duplicate, {| rows := rows tbl; next_id := next_id tbl + 1 |})
  else (inserted row, {| rows := rows tbl ++ [row]; next_id := next_id tbl + 1 |}).



(** [positions] has [ticket BIGINT PRIMARY KEY]; an upsert replaces the
    row with the same ticket or adds one. *)
Definition upsert_position (p : Position.t) (tbl : list Position.t) : list Position.t :=
  filter (λ r, Position.ticket r ≠ Position.ticket p) tbl ++ [p].

End Schema.

(** ** The bridge ([main.py] of the implementation plan)

    Python sets of tickets are [gset Ticket]. The calls into
    [mt5_client] and [supabase_client] can raise; what they do in one
    iteration of the loop is given by a [TickEnv]. Writes made before an
    exception stay in the store. *)

Module Bridge.

Definition Exception := string.

Record Store := {
  positions : list Position.t;
  trades : Schema.Trades
}.

Definition empty_store : Store :=
  {| positions := []; trades := Schema.empty_trades |}.

(** What [history_deals_get] reports for a closed ticket. *)
Record Deal := {
  symbol : string;
  type : Z;
  volume : Q;
  price : Q;
  profit : option Q;
  swap : option Q;
  commission : option Q;
  comment : option string
}.

(** What the outside world does during one iteration: the answer of
    [mt5_client.get_open_positions()], whether [upsert_positions] fails,
    the answer of [history_deals_get] per ticket, whether [append_trade]
    fails for a ticket, and the server clock. *)
Record TickEnv := {
  get_open_positions : Exception + list Position.t;
  upsert_fault : option Exception;
  history_deals_get : Ticket → Exception + Deal;
  append_fault : Ticket → option Exception;
  now : Timestamp
}.

(** Computations that read and write the store and may raise. *)
Definition M (A : Type) : Type := Store → (Exception + A) * Store.

Definition ret {A} (v : A) : M A := λ st, (inr v, st).
Definition raise {A} (e : Exception) : M A := λ st, (inl e, st).
Definition bind {A B} (m : M A) (k : A → M B) : M B :=
  λ st, match m st with
        | (inr v, st') => k v st'
        | (inl e, st') => (inl e, st')
        end.
Definition lift {A} (r : Exception + A) : M A :=
  match r with inl e => raise e | inr v => ret v end.

Notation "'let*' x ':=' m 'in' k" := (bind m (λ x, k))
  (at level 10, x name, m at level 100, k at level 200).
Notation "'run' m 'then' k" := (bind m (λ _, k))
  (at level 10, m at level 100, k at level 200).

Fixpoint for_each {A} (l : list A) (body : A → M unit) : M unit :=
  match l with
  | [] => ret ()
  | x :: rest => run body x then for_each rest body
  end.

(** Modelled from the spec: the body of [upsert_positions] is not in
    the source, only its signature; §4.4 says "last-write-wins per
    ticket", which on a table keyed by ticket is one upsert per
    snapshot. *)
Definition upsert_positions (env : TickEnv) (ps : list Position.t) : M unit :=
  match upsert_fault env with
  | Some e => raise e
  | None => λ st, (inr (), {| positions := foldl (flip Schema.upsert_position) (positions st) ps;
                              trades := trades st |})
  end.

(** Modelled from the spec: the body of [append_trade] is not in the
    source, only its signature; it inserts one row into [trades], and
    a rejected insert surfaces as an exception like any other failed
    request. *)
Definition append_trade (env : TickEnv) (n : Schema.NewTrade) : M unit :=
  match append_fault env (Schema.ticket n) with
  | Some e => raise e
  | None => λ st,
      match Schema.insert_trade (now env) n (trades st) with
      | (Schema.inserted _, tbl) => (inr (), {| positions := positions st; trades := tbl |})
      | (Schema.duplicate, tbl) =>
          (inl "duplicate key value violates unique constraint",
           {| positions := positions st; trades := tbl |})
      end
  end.

(** Modelled from the spec: the row [process_closed_tickets] appends
    for a closed ticket is not spelled out in the source; it is a CLOSE
    row carrying the deal's fields, its timestamp left to the column
    default. *)
Definition close_trade (t : Ticket) (d : Deal) : Schema.NewTrade :=
  {| Schema.ticket := t;
     Schema.action := CLOSE;
     Schema.symbol := symbol d;
     Schema.type := type d;
     Schema.volume := volume d;
     Schema.price := price d;
     Schema.profit := profit d;
     Schema.swap := swap d;
     Schema.commission := commission d;
     Schema.comment := comment d;
     Schema.timestamp := None |}.

(** [return seen_tickets - current_tickets] *)
Definition detect_closes (seen_tickets current_tickets : gset Ticket) : gset Ticket :=
  seen_tickets ∖ current_tickets.

(** Modelled from the spec: [process_closed_tickets] has a docstring
    and no body, "Fetch close info from history_deals_get, append to
    trades": for each closed ticket, one lookup and one appended CLOSE
    row. *)
Definition process_closed_tickets (env : TickEnv) (closed_tickets : gset Ticket) : M unit :=
  for_each (elements closed_tickets) (λ t,
    let* d := lift (history_deals_get env t) in
    append_trade env (close_trade t d)).

(** [{p['ticket'] for p in positions}] *)
Definition ticket_set (ps : list Position.t) : gset Ticket :=
  list_to_set (Position.ticket <$> ps).

(** The body of the [try] up to the assignment to
    [seen_open_tickets]; its value is [current_tickets]. *)
Definition tick (env : TickEnv) (seen_open_tickets : gset Ticket) : M (gset Ticket) :=
  let* positions := lift (get_open_positions env) in
  run upsert_positions env positions then
  let current_tickets := ticket_set positions in
  let closed := detect_closes seen_open_tickets current_tickets in
  run process_closed_tickets env closed then
  ret current_tickets.

(** One iteration of [while True]: on success
    [seen_open_tickets = current_tickets]; on an exception the handler
    ("Exponential backoff on errors") waits and the loop goes round with
    its variable as it was. *)
Definition iteration (s : gset Ticket * Store) (env : TickEnv) : gset Ticket * Store :=
  match tick env s.1 s.2 with
  | (inr current_tickets, st') => (current_tickets, st')
  | (inl _, st') => (s.1, st')
  end.

(** [seen_open_tickets = set()] *)
Definition initial_seen_open_tickets : gset Ticket := ∅.

(** The loop run for as many iterations as there are environments. *)
Definition main_loop (envs : list TickEnv) (st : Store) : gset Ticket * Store :=
  foldl iteration (initial_seen_open_tickets, st) envs.

(** The rows appended to [trades] between two stores. *)
Definition new_trades (st st' : Store) : list Trade.t :=
  drop (length (Schema.rows (trades st))) (Schema.rows (trades st')).


End Bridge.

(** ** The startup baseline of the design document

    The document's words for §4.3 "Startup procedure", kept apart from
    the loop above so that the two can be compared:
    baseline := {tickets in store's position table} ∪ {tickets with a
    persisted OPEN trade event but no CLOSE}. *)

Module Design.
Import Bridge.

Definition tickets_with (a : Action) (st : Store) : gset Ticket :=
  list_to_set (Trade.ticket <$> filter (λ r, Trade.action r = a) (Schema.rows (trades st))).

Definition startup_baseline (st : Store) : gset Ticket :=
  ticket_set (positions st) ∪ (tickets_with OPEN st ∖ tickets_with CLOSE st).

(** CLOSE rows among the rows a tick appended, for one ticket. *)
Definition close_events_for (t : Ticket) (emitted : list Trade.t) : list Trade.t :=
  filter (λ r, Trade.ticket r = t ∧ Trade.action r = CLOSE) emitted.

(** "Restart safety": a ticket open in the store and absent from the
    first snapshot after a start gets exactly one CLOSE event. *)
Definition restart_safe (st : Store) (env : TickEnv) : Prop :=
  ∀ t ps, get_open_positions env = inr ps →
    t ∈ startup_baseline st → t ∉ ticket_set ps →
    length (close_events_for t (new_trades st (main_loop [env] st).2)) = 1%nat.


(** "the in-memory trades list never has length greater than L after
    an update". *)
Definition trades_bounded (limit : JS.number)
    (payload : SupabaseClient.Payload Trade.t) (prevTrades : list Trade.t) : Prop :=
  ¬ JS.length_gt (UseLiveTrades.handleRealtimeUpdate limit payload prevTrades) limit.


End Design.

(** ** Retry Controller (§4.1 of the design document)

    The source has no retry wrapper: the plan only says "Exponential
    backoff on errors" and "Retry with jitter, max 3 attempts". *)

Module RetryController.

(** Modelled from the spec: the policy record of §4.1,
    [{maxAttempts, baseDelay, maxDelay, jitterFraction}]; it is missing
    from the source. *)
Record Policy := {
  maxAttempts : positive;
  baseDelay : Q;
  maxDelay : Q;
  jitterFraction : Q
}.

(** Modelled from the spec: [Result<T, Failure>] with
    [Failure{cause, attempts}], missing from the source. *)
Inductive Result (T E : Type) :=
| Success (value : T)
| Failure (cause : E) (attempts : nat).
Arguments Success {T E} value.
Arguments Failure {T E} cause attempts.

Section Execute.
Context {T E : Type}.

(** The outcome of the k-th call of the wrapped operation (k from 1):
    a value, or the failure it signalled or raised. *)
Variable operation : nat → E + T.
(** The random draw in [-1, 1] used for the delay after attempt k. *)
Variable draw : nat → Q.
Variable policy : Policy.

(** Modelled from the spec: the nominal delay, missing from the source,
    [min(maxDelay, baseDelay * 2^(attempt-1))]. *)
Definition backoff (attempt : nat) : Q :=
  Qmin (maxDelay policy) (baseDelay policy * 2 ^ (Z.of_nat attempt - 1))%Q.

(** Modelled from the spec: the delay "randomized by ±jitterFraction",
    missing from the source. *)
Definition delay (attempt : nat) : Q :=
  (backoff attempt * (1 + jitterFraction policy * draw attempt))%Q.

(** Modelled from the spec: the retry loop of [execute], missing from
    the source: attempt; on failure sleep and try again while attempts
    remain, else return the terminal [Failure{cause, attempts}]. The
    second component is the list of delays slept, in order. *)
Fixpoint attempts_from (remaining : nat) (attempt : nat) : Result T E * list Q :=
  match operation attempt with
  | inr v => (Success v, [])
  | inl cause =>
      match remaining with
      | O => (Failure cause attempt, [])
      | S r =>
          let '(res, slept) := attempts_from r (S attempt) in
          (res, delay attempt :: slept)
      end
  end.

(** Modelled from the spec: [execute(operation, policy)], missing from
    the source; [maxAttempts] attempts at most, the first numbered 1. *)
Definition execute : Result T E * list Q :=
  attempts_from (Pos.to_nat (maxAttempts policy) - 1) 1.

(** How many times [execute] called the operation. *)
Definition attempts_made : nat := S (length execute.2).

End Execute.

End RetryController.

(** ** Sample data *)

Module Sample.
Import Bridge SupabaseClient.

Definition position (t : Ticket) : Position.t :=
  Position.mk t "EURUSD" 0 (1 # 10) (11 # 10) None None None None None 0.

Definition trade (i : Z) (t : Ticket) (a : Action) (ts : Timestamp) : Trade.t :=
  Trade.mk i t a "EURUSD" 0 (1 # 10) (11 # 10) None None None None ts.


Definition deal : Deal :=
  Build_Deal "EURUSD" 0 (1 # 10) (12 # 10) (Some (5 # 1)) None None None.

(** An iteration in which every call returns normally. *)
Definition calm (ps : list Position.t) (at_ : Timestamp) : TickEnv :=
  {| get_open_positions := inr ps;
     upsert_fault := None;
     history_deals_get := λ _, inr deal;
     append_fault := λ _, None;
     now := at_ |}.


(** A store left by an earlier run: ticket 100 is open. *)
Definition store_with_100 : Store :=
  {| positions := [position 100];
     trades := {| Schema.rows := [trade 1 100 OPEN 5]; Schema.next_id := 2 |} |}.

Definition insert_payload {A} (r : A) : Payload A :=
  {| eventType := "INSERT"; new := r; old := r |}.

(** An operation that fails twice and then answers 7, under the plan's
    "max 3 attempts". *)
Definition flaky (k : nat) : string + Z :=
  if (k <? 3)%nat then inl "timeout" else inr 7.

Definition three_attempts : RetryController.Policy :=
  {| RetryController.maxAttempts := 3;
     RetryController.baseDelay := 1;
     RetryController.maxDelay := 30;
     RetryController.jitterFraction := 1 # 4 |}.

End Sample.

(** ** [useLivePositions.ts]: the hook's state, its fetches and the
    derived hooks *)

Module LivePositions.
Import SupabaseClient.

(** The three [useState] cells. *)
Record State := {
  positions : list Position.t;
  loading : bool;
  error : option string
}.

(** [useState([])], [useState(true)], [useState(null)] *)
Definition initial : State := {| positions := []; loading := true; error := None |}.

(** [fetchData]: [try { setError(null); const data = await
    fetchPositions(); setPositions(data) } catch (err) { setError(..) }
    finally { setLoading(false) }]. A rejection is an [Error] whose
    message is the [Throw]'s reason. *)
Definition fetchData (query : Completion (Response (list Position.t))) (s : State) : State :=
  match fetchPositions query with
  | Return data => {| positions := data; loading := false; error := None |}
  | Throw reason => {| positions := positions s; loading := false; error := Some reason |}
  end.

(** [refetch]: [setLoading(true); await fetchData()] *)
Definition refetch (query : Completion (Response (list Position.t))) (s : State) : State :=
  fetchData query {| positions := positions s; loading := true; error := error s |}.

(** The 30-second fallback: [if (!loading) { fetchData() }] *)
Definition poll (query : Completion (Response (list Position.t))) (s : State) : State :=
  if loading s then s else fetchData query s.

(** A realtime payload goes through [handleRealtimeUpdate]. *)
Definition realtime (payload : Payload Position.t) (s : State) : State :=
  {| positions := UseLivePositions.handleRealtimeUpdate payload (positions s);
     loading := loading s;
     error := error s |}.

Inductive Event :=
| Fetched (query : Completion (Response (list Position.t)))
| Refetched (query : Completion (Response (list Position.t)))
| Polled (query : Completion (Response (list Position.t)))
| Pushed (payload : Payload Position.t).

Definition step (s : State) (ev : Event) : State :=
  match ev with
  | Fetched q => fetchData q s
  | Refetched q => refetch q s
  | Polled q => poll q s
  | Pushed payload => realtime payload s
  end.

(** The hook's state after a sequence of events, from its initial state. *)
Definition after (evs : list Event) : State := foldl step initial evs.

(** A fetch that resolves brings rows with pairwise-distinct tickets, as
    a table with [ticket BIGINT PRIMARY KEY] does. *)
Definition distinct_answer (ev : Event) : Prop :=
  match ev with
  | Fetched q | Refetched q | Polled q =>
      match q with
      | Return r => NoDup (Position.ticket <$> default [] (data r))
      | Throw _ => True
      end
  | Pushed _ => True
  end.

(** [positions.length] *)
Definition positionCount (s : State) : nat := length (positions s).

(** [positions.find(p => p.ticket === ticket)] *)
Definition find_ticket (ticket : Ticket) (ps : list Position.t) : option Position.t :=
  List.find (λ p, bool_decide (Position.ticket p = ticket)) ps.

(** [(position.profit || 0)]: null counts as 0. *)
Definition profit_or_0 (p : Position.t) : Q := default 0%Q (Position.profit p).

Record PositionView := {
  position : option Position.t;
  exists_ : bool;
  isProfit : bool;
  isLoss : bool
}.

(** [usePosition(ticket)] over the hook's list. *)
Definition usePosition (ticket : Ticket) (ps : list Position.t) : PositionView :=
  let position := find_ticket ticket ps in
  {| position := position;
     exists_ := bool_decide (is_Some position);
     isProfit := match position with
                 | Some p => if Qlt_le_dec 0 (profit_or_0 p) then true else false
                 | None => false
                 end;
     isLoss := match position with
               | Some p => if Qlt_le_dec (profit_or_0 p) 0 then true else false
               | None => false
               end |}.

(** [usePositionsBySymbol(symbol?)]: [symbol ? positions.filter(p =>
    p.symbol === symbol) : positions]; an omitted and an empty symbol
    are both falsy. *)
Definition usePositionsBySymbol (symbol : option string) (ps : list Position.t)
  : list Position.t :=
  match symbol with
  | Some s => if decide (s = "") then ps else filter (λ p, Position.symbol p = s) ps
  | None => ps
  end.

End LivePositions.

(** ** [useLiveTrades.ts]: derived lists and [useTradesByTicket] *)

Module LiveTrades.
Import SupabaseClient.

(** [trades.filter(trade => trade.action === 'OPEN')] *)
Definition openTrades (trades : list Trade.t) : list Trade.t :=
  filter (λ t, Trade.action t = OPEN) trades.

(** [trades.filter(trade => trade.action === 'CLOSE')] *)
Definition closeTrades (trades : list Trade.t) : list Trade.t :=
  filter (λ t, Trade.action t = CLOSE) trades.

(** [trades.length] *)
Definition totalTrades (trades : list Trade.t) : nat := length trades.

(** The list after a run of realtime payloads. *)
Definition pushed (limit : JS.number) (payloads : list (Payload Trade.t))
    (prevTrades : list Trade.t) : list Trade.t :=
  foldl (λ acc payload, UseLiveTrades.handleRealtimeUpdate limit payload acc)
        prevTrades payloads.

Record ByTicket := {
  trades : list Trade.t;
  openTrade : option Trade.t;
  closeTrade : option Trade.t;
  isComplete : bool
}.

(** [useTradesByTicket(ticket)] over the hook's list. *)
Definition useTradesByTicket (ticket : Ticket) (all : list Trade.t) : ByTicket :=
  let ticketTrades := filter (λ t, Trade.ticket t = ticket) all in
  let openTrade := List.find (λ t, bool_decide (Trade.action t = OPEN)) ticketTrades in
  let closeTrade := List.find (λ t, bool_decide (Trade.action t = CLOSE)) ticketTrades in
  {| trades := ticketTrades;
     openTrade := openTrade;
     closeTrade := closeTrade;
     isComplete := bool_decide (is_Some openTrade) && bool_decide (is_Some closeTrade) |}.

End LiveTrades.

(** ** [useBridgeStatus.ts]: [getTimeAgo]

    [Date.getTime()] is an integer count of milliseconds, or NaN for a
    string that does not parse; [Math.floor(x / n)] on integers is floor
    division. *)

Module BridgeStatusHook.

Inductive Unit := seconds | minutes | hours | days.

Definition unit_name (u : Unit) : string :=
  match u with
  | seconds => "seconds" | minutes => "minutes" | hours => "hours" | days => "days"
  end.

(** Milliseconds in one unit. *)
Definition unit_ms (u : Unit) : Z :=
  match u with
  | seconds => 1000 | minutes => 60000 | hours => 3600000 | days => 86400000
  end.

(** The template literals [`${n} seconds ago`] and so on. *)
Definition ago (n : Z) (u : Unit) : string :=
  pretty n +:+ " " +:+ unit_name u +:+ " ago".

(** [getTimeAgo(dateString)], with [now.getTime()] and
    [past.getTime()] given; [None] is NaN, for which every comparison
    is false and the last branch prints ["NaN days ago"]. *)
Definition getTimeAgo (now : Z) (past : option Z) : string :=
  match past with
  | None => "NaN days ago"
  | Some past =>
      let diffMs := now - past in
      let diffSeconds := diffMs / 1000 in
      let diffMinutes := diffSeconds / 60 in
      let diffHours := diffMinutes / 60 in
      let diffDays := diffHours / 24 in
      if diffSeconds <? 60 then ago diffSeconds seconds
      else if diffMinutes <? 60 then ago diffMinutes minutes
      else if diffHours <? 24 then ago diffHours hours
      else ago diffDays days
  end.

End BridgeStatusHook.

(** ** The plan's first [useLivePositions] (implementation plan, §5)

    [INSERT] and [UPDATE] share one branch: drop the entry with the
    incoming ticket, then append the new record. *)

Module PlanLivePositions.
Import SupabaseClient.

Definition handler (payload : Payload Position.t) (prev : list Position.t)
  : list Position.t :=
  if decide (eventType payload = "INSERT" ∨ eventType payload = "UPDATE") then
    let updated := filter (λ p, Position.ticket p ≠ Position.ticket (new payload)) prev in
    updated ++ [new payload]
  else if decide (eventType payload = "DELETE") then
    filter (λ p, Position.ticket p ≠ Position.ticket (old payload)) prev
  else prev.

End PlanLivePositions.

(** ** [useBridgeStatus.ts]: the hook's state and derived values *)

Module BridgeStatusState.

(** The status value ['error']. *)
Definition error_status : Status := error.

Import SupabaseClient.

Global Instance Status_eq_dec : EqDecision Status.
Proof. solve_decision. Defined.

Record State := {
  status : option BridgeStatus.t;
  loading : bool;
  error : option string
}.

(** [fetchData]: [try { setError(null); const data = await
    fetchBridgeStatus(); setStatus(data) } catch (err) { setError(..) }
    finally { setLoading(false) }] *)
Definition fetchData (query : Completion (Response BridgeStatus.t)) (s : State) : State :=
  match fetchBridgeStatus query with
  | Return data => {| status := data; loading := false; error := None |}
  | Throw reason => {| status := status s; loading := false; error := Some reason |}
  end.

(** [if (eventType === 'UPDATE') { setStatus(newRecord) }] *)
Definition handleRealtimeUpdate (payload : Payload BridgeStatus.t) (s : State) : State :=
  if decide (eventType payload = "UPDATE")
  then {| status := Some (new payload); loading := loading s; error := error s |}
  else s.

(** [status?.status === x] *)
Definition status_is (x : Status) (s : State) : bool :=
  match status s with
  | Some b => bool_decide (BridgeStatus.status b = x)
  | None => false
  end.

Definition isHealthy (s : State) : bool := status_is healthy s.
Definition isOffline (s : State) : bool := status_is offline s.
Definition isError (s : State) : bool := status_is error_status s.

(** [status ? getTimeAgo(status.last_seen) : 'Unknown'], with the
    parsing of the timestamp string by [new Date(..)] as a parameter. *)
Definition lastSeenAgo (now : Z) (parse : Timestamp → option Z) (s : State) : string :=
  match status s with
  | Some b => BridgeStatusHook.getTimeAgo now (parse (BridgeStatus.last_seen b))
  | None => "Unknown"
  end.

End BridgeStatusState.

(** ** More sample data *)

Module Scenario.
Import Bridge.


End Scenario.

(** * Properties *)

(** ** Query helpers *)

Section QueryHelpers.
Import SupabaseClient.

Lemma await_Return {A B} (v : A) (k : A → Completion B) : await (Return v) k = k v.
Proof. reflexivity. Qed.

(** C9. When the store's answer carries an error, [fetchPositions] and
    [fetchRecentTrades] return the empty list and [fetchBridgeStatus]
    returns null, whatever [data] holds, and none of them throws; when
    there is no error and no data the two list helpers return the empty
    list. *)
Theorem query_helpers_swallow_errors
    (e : PostgrestError) (ps : option (list Position.t))
    (ts : option (list Trade.t)) (b : option BridgeStatus.t) (limit : Z) :
  fetchPositions (Return {| data := ps; error := Some e |}) = Return []
  ∧ fetchRecentTrades (λ _, Return {| data := ts; error := Some e |}) limit = Return []
  ∧ fetchBridgeStatus (Return {| data := b; error := Some e |}) = Return None
  ∧ fetchPositions (Return {| data := None; error := None |}) = Return []
  ∧ fetchRecentTrades (λ _, Return {| data := None; error := None |}) limit = Return [].
Proof.
  unfold fetchPositions, fetchRecentTrades, fetchBridgeStatus.
  rewrite !await_Return. cbn. repeat split.
Qed.

End QueryHelpers.

(** ** The positions reducer keeps tickets distinct *)

Section PositionsReducer.
Import SupabaseClient UseLivePositions.

Local Abbreviation tickets l := (Position.ticket <$> l).

Lemma some_ticket_spec k (l : list Position.t) :
  some_ticket k l = true ↔ k ∈ tickets l.
Proof.
  unfold some_ticket. induction l as [|p l IH]; cbn.
  - split; [discriminate | intros H; inversion H].
  - rewrite orb_true_iff, IH, bool_decide_eq_true, elem_of_cons.
    split; (intros [H|H]; [left; congruence | by right]).
Qed.

(** Replacing a row by one with the same ticket leaves the column of
    tickets as it was. *)
Lemma tickets_replace (n : Position.t) (l : list Position.t) :
  tickets ((λ pos, if bool_decide (Position.ticket pos = Position.ticket n)
                   then n else pos) <$> l) = tickets l.
Proof.
  induction l as [|p l IH]; cbn; [done|].
  rewrite IH. f_equal. case_bool_decide; congruence.
Qed.

Lemma tickets_filter (k : Ticket) (l : list Position.t) :
  tickets (filter (λ pos, Position.ticket pos ≠ k) l) = filter (λ t, t ≠ k) (tickets l).
Proof.
  induction l as [|p l IH]; [done|].
  rewrite fmap_cons, !filter_cons.
  destruct (decide (Position.ticket p ≠ k)); [rewrite fmap_cons|]; by rewrite IH.
Qed.

Lemma handle_INSERT n o prev :
  handleRealtimeUpdate {| eventType := "INSERT"; new := n; old := o |} prev
  = if some_ticket (Position.ticket n) prev then prev else prev ++ [n].
Proof. unfold handleRealtimeUpdate. cbn. by destruct (some_ticket _ _). Qed.

Lemma handle_UPDATE n o prev :
  handleRealtimeUpdate {| eventType := "UPDATE"; new := n; old := o |} prev
  = (λ pos, if bool_decide (Position.ticket pos = Position.ticket n) then n else pos) <$> prev.
Proof. reflexivity. Qed.

Lemma handle_DELETE n o prev :
  handleRealtimeUpdate {| eventType := "DELETE"; new := n; old := o |} prev
  = filter (λ pos, Position.ticket pos ≠ Position.ticket o) prev.
Proof. reflexivity. Qed.

Lemma handle_NoDup payload prev :
  NoDup (tickets prev) → NoDup (tickets (handleRealtimeUpdate payload prev)).
Proof.
  intros Hnd. unfold handleRealtimeUpdate.
  repeat case_decide; cbn; try done.
  - destruct (some_ticket _ prev) eqn:Hex; cbn; [done|].
    rewrite fmap_app. cbn. apply NoDup_app. split_and!; [done | | apply NoDup_singleton].
    intros t Ht ->%list_elem_of_singleton.
    apply some_ticket_spec in Ht. congruence.
  - by rewrite tickets_replace.
  - rewrite tickets_filter. by apply NoDup_filter.
Qed.

(** C10. From a list with pairwise-distinct tickets, for every payload
    the result has pairwise-distinct tickets; INSERT leaves the list as
    it is when the incoming ticket is present and appends the record
    otherwise; UPDATE changes only entries with the incoming ticket, to
    the new record; DELETE keeps exactly the entries whose ticket
    differs from the deleted one, in order. *)
Theorem positions_reducer_keeps_tickets_distinct
    (prev : list Position.t) (ev : string) (newRecord oldRecord : Position.t) :
  NoDup (tickets prev) →
  let after e := handleRealtimeUpdate {| eventType := e; new := newRecord; old := oldRecord |} prev in
  NoDup (tickets (after ev))
  ∧ ((Position.ticket newRecord ∈ tickets prev ∧ after "INSERT" = prev)
     ∨ ((Position.ticket newRecord ∉ tickets prev) ∧ after "INSERT" = prev ++ [newRecord]))
  ∧ Forall2 (λ p r, (Position.ticket p = Position.ticket newRecord ∧ r = newRecord)
                    ∨ (Position.ticket p ≠ Position.ticket newRecord ∧ r = p))
            prev (after "UPDATE")
  ∧ after "DELETE" `sublist_of` prev
  ∧ (∀ p, p ∈ after "DELETE" ↔ p ∈ prev ∧ Position.ticket p ≠ Position.ticket oldRecord).
Proof.
  intros Hnd after. subst after. cbn beta. split_and!.
  - by apply handle_NoDup.
  - rewrite handle_INSERT.
    destruct (some_ticket _ prev) eqn:Hex.
    + left. split; [by apply some_ticket_spec | done].
    + right. split; [|done]. intros Hin%some_ticket_spec. congruence.
  - rewrite handle_UPDATE. clear Hnd.
    induction prev as [|p l IH]; cbn; constructor; [|done].
    case_bool_decide; [by left | by right].
  - rewrite handle_DELETE. apply sublist_filter.
  - intros p. rewrite handle_DELETE, list_elem_of_filter. tauto.
Qed.

Lemma positions_reducer_keeps_tickets_distinct_witness :
  NoDup (tickets [Sample.position 1; Sample.position 2])
  ∧ NoDup (tickets (handleRealtimeUpdate (Sample.insert_payload (Sample.position 3))
                      [Sample.position 1; Sample.position 2])).
Proof.
  assert (Hnd : NoDup (tickets [Sample.position 1; Sample.position 2])).
  { cbn. apply NoDup_cons. split; [|apply NoDup_singleton].
    intros H%list_elem_of_singleton. discriminate. }
  split; [exact Hnd|].
  exact (proj1 (positions_reducer_keeps_tickets_distinct
                  [Sample.position 1; Sample.position 2] "INSERT"
                  (Sample.position 3) (Sample.position 3) Hnd)).
Defined.

End PositionsReducer.

(** ** The trades reducer is bounded by a non-negative limit *)

Section TradesReducer.
Import SupabaseClient UseLiveTrades.

Lemma truncate_nonneg (q : Q) : (0 <= q)%Q → 0 ≤ JS.truncate q.
Proof.
  destruct q as [n d]. unfold Qle, JS.truncate. cbn. intros Hn.
  apply Z.quot_pos; lia.
Qed.

Lemma truncate_le (q : Q) : (0 <= q)%Q → (inject_Z (JS.truncate q) <= q)%Q.
Proof.
  destruct q as [n d]. unfold Qle, JS.truncate. cbn. intros Hn.
  rewrite Z.quot_div_nonneg by lia.
  rewrite Z.mul_1_r in Hn. rewrite Z.mul_1_r, Z.mul_comm.
  apply Z.mul_div_le. lia.
Qed.

(** [slice(0, L)] for [L >= 0] keeps the first [L] elements. *)
Lemma slice_from_0 {A} (l : list A) (L : JS.number) :
  JS.nonneg L → JS.slice l (JS.Finite 0) L = take (JS.entries L (length l)) l.
Proof.
  intros HL. unfold JS.slice.
  replace (JS.clamp_index _ (JS.ToIntegerOrInfinity (JS.Finite 0))) with 0
    by (cbn; change (JS.truncate 0) with 0; cbn; lia).
  rewrite Z.sub_0_r. cbn [Z.to_nat]. rewrite drop_0.
  destruct L as [q| | |]; cbn in HL |- *; try done.
  - pose proof (truncate_nonneg q HL) as Hq.
    destruct (Z.ltb_spec (JS.truncate q) 0) as [?|_]; [lia|].
    destruct (Z_le_gt_dec (JS.truncate q) (Z.of_nat (length l))) as [Hle|Hgt].
    + by rewrite Z.min_l, Z.max_l by lia.
    + rewrite Z.min_r, Z.max_l, Nat2Z.id by lia.
      rewrite !take_ge; [done | lia | done].
  - by rewrite Z.max_l, Nat2Z.id by lia.
Qed.

Lemma take_entries_bounded {A} (l : list A) (L : JS.number) :
  JS.nonneg L → ¬ JS.length_gt (take (JS.entries L (length l)) l) L.
Proof.
  destruct L as [q| | |]; cbn; try tauto.
  intros Hq Hlt.
  pose proof (truncate_nonneg q Hq) as H0. pose proof (truncate_le q Hq) as Hle.
  apply (Qlt_not_le _ _ Hlt). apply Qle_trans with (inject_Z (JS.truncate q)); [|exact Hle].
  rewrite <- Zle_Qle, length_take. lia.
Qed.

(** C8 (amended). For every limit [L >= 0] and every INSERT payload the
    handler puts the new trade in front and keeps the first [L]
    entries, so the list is never longer than [L] afterwards. *)
Theorem trades_reducer_bounded
    (limit : JS.number) (newRecord oldRecord : Trade.t) (prevTrades : list Trade.t) :
  JS.nonneg limit →
  let payload := {| eventType := "INSERT"; new := newRecord; old := oldRecord |} in
  handleRealtimeUpdate limit payload prevTrades
    = take (JS.entries limit (S (length prevTrades))) (newRecord :: prevTrades)
  ∧ Design.trades_bounded limit payload prevTrades.
Proof.
  intros HL payload. unfold Design.trades_bounded, handleRealtimeUpdate. subst payload. cbn.
  rewrite slice_from_0 by done. split; [done|].
  by apply (take_entries_bounded (newRecord :: prevTrades)).
Qed.

Lemma trades_reducer_bounded_witness :
  JS.nonneg (JS.Finite 2)
  ∧ handleRealtimeUpdate (JS.Finite 2) (Sample.insert_payload (Sample.trade 3 7 OPEN 30))
      [Sample.trade 2 6 CLOSE 20; Sample.trade 1 6 OPEN 10]
    = [Sample.trade 3 7 OPEN 30; Sample.trade 2 6 CLOSE 20].
Proof.
  assert (H2 : JS.nonneg (JS.Finite 2)) by (cbn; unfold Qle; cbn; lia).
  split; [exact H2|].
  exact (proj1 (trades_reducer_bounded (JS.Finite 2) (Sample.trade 3 7 OPEN 30)
                  (Sample.trade 3 7 OPEN 30)
                  [Sample.trade 2 6 CLOSE 20; Sample.trade 1 6 OPEN 10] H2)).
Defined.

(** C8 as stated fails for a negative limit: [slice(0, -1)] drops only
    the last element, so with limit -1 and two trades in the list an
    INSERT leaves two entries, and 2 > -1. *)
Lemma trades_reducer_negative_limit :
  handleRealtimeUpdate (JS.Finite (-1)) (Sample.insert_payload (Sample.trade 3 7 OPEN 30))
      [Sample.trade 2 6 CLOSE 20; Sample.trade 1 6 OPEN 10]
    = [Sample.trade 3 7 OPEN 30; Sample.trade 2 6 CLOSE 20]
  ∧ ¬ Design.trades_bounded (JS.Finite (-1)) (Sample.insert_payload (Sample.trade 3 7 OPEN 30))
        [Sample.trade 2 6 CLOSE 20; Sample.trade 1 6 OPEN 10].
Proof.
  split; [reflexivity|].
  unfold Design.trades_bounded. intros H. apply H. vm_compute. reflexivity.
Qed.

End TradesReducer.

(** ** What the sink's unique index enforces *)

Section TradesTable.
Import Schema.

Local Abbreviation keys tbl := (idx_trades_unique <$> rows tbl).


Lemma insert_trade_absent now n tbl :
  idx_trades_unique (new_row now (next_id tbl) n) ∉ keys tbl →
  insert_trade now n tbl
  = (inserted (new_row now (next_id tbl) n),
     {| rows := rows tbl ++ [new_row now (next_id tbl) n]; next_id := next_id tbl + 1 |}).
Proof. intros Hin. unfold insert_trade. by rewrite bool_decide_eq_false_2. Qed.









End TradesTable.

(** ** The bridge loop *)

Section BridgeLoop.
Import Bridge.

Local Abbreviation rows_of st := (Schema.rows (trades st)).

(** Equations of the monad. *)
Lemma bind_inr {A B} (m : M A) (k : A → M B) st v st' :
  m st = (inr v, st') → bind m k st = k v st'.
Proof. intros H. unfold bind. by rewrite H. Qed.

Lemma bind_inl {A B} (m : M A) (k : A → M B) st e st' :
  m st = (inl e, st') → bind m k st = (inl e, st').
Proof. intros H. unfold bind. by rewrite H. Qed.

Lemma bind_inv {A B} (m : M A) (k : A → M B) st r st' :
  bind m k st = (r, st') →
  (∃ e, m st = (inl e, st') ∧ r = inl e)
  ∨ (∃ v st1, m st = (inr v, st1) ∧ k v st1 = (r, st')).
Proof.
  unfold bind. destruct (m st) as [[e|v] st1] eqn:Hm; intros H.
  - left. exists e. by inversion H.
  - right. eauto.
Qed.

Tactic Notation "bind_cases" hyp(H) "as" ident(Hm) ident(Hk) :=
  apply bind_inv in H as [(? & Hm & ->) | (? & ? & Hm & Hk)].

(** [upsert_positions] never touches [trades]. *)
Lemma upsert_positions_trades env ps st r st' :
  upsert_positions env ps st = (r, st') → trades st' = trades st.
Proof.
  unfold upsert_positions, raise. destruct (upsert_fault env); intros H; by inversion H.
Qed.

(** One closed ticket: either nothing is stored and an exception is
    raised, or one CLOSE row for that ticket is added at the end. *)
Lemma close_one_rows env t st r st' :
  bind (lift (history_deals_get env t)) (λ d, append_trade env (close_trade t d)) st
    = (r, st') →
  positions st' = positions st
  ∧ match r with
    | inl _ => rows_of st' = rows_of st
    | inr _ => ∃ row, rows_of st' = rows_of st ++ [row]
                      ∧ Trade.ticket row = t ∧ Trade.action row = CLOSE
    end.
Proof.
  unfold bind, lift, raise, ret, append_trade.
  destruct (history_deals_get env t) as [e|d]; [intros H; by inversion H|].
  cbn. destruct (append_fault env t); [intros H; by inversion H|].
  unfold Schema.insert_trade. case_bool_decide as Hkey; intros H; inversion H; subst; cbn.
  - done.
  - split; [done|]. eauto.
Qed.

(** The whole of [process_closed_tickets], on a list of tickets: the
    rows added are CLOSE rows for an initial segment of the list, and
    for all of it when no exception is raised. *)
Lemma for_each_close_rows env (l : list Ticket) st r st' :
  for_each l (λ t, bind (lift (history_deals_get env t))
                        (λ d, append_trade env (close_trade t d))) st = (r, st') →
  positions st' = positions st
  ∧ ∃ added, rows_of st' = rows_of st ++ added
      ∧ Forall (λ row, Trade.action row = CLOSE) added
      ∧ match r with
        | inl _ => (Trade.ticket <$> added) `prefix_of` l
        | inr _ => Trade.ticket <$> added = l
        end.
Proof.
  revert st. induction l as [|t l IH]; intros st H; cbn in H.
  - inversion H; subst. split; [done|]. exists []. by rewrite app_nil_r.
  - bind_cases H as Hm Hk.
    + apply close_one_rows in Hm as [Hp Hr]. split; [done|].
      exists []. rewrite app_nil_r. split_and!; [done | constructor | apply prefix_nil].
    + apply close_one_rows in Hm as [Hp (row & Hr & Ht & Ha)].
      apply IH in Hk as [Hp' (added & Hr' & Hall & Htl)].
      split; [congruence|]. exists (row :: added).
      rewrite Hr', Hr, <- app_assoc. split_and!; [done | by constructor |].
      rewrite fmap_cons, Ht. destruct r; [by apply prefix_cons | by f_equal].
Qed.

Lemma new_trades_app st st' added :
  rows_of st' = rows_of st ++ added → new_trades st st' = added.
Proof. intros H. unfold new_trades. by rewrite H, drop_app_length. Qed.

(** What a tick that got a snapshot does. *)
Lemma tick_rows env seen st ps r st' :
  get_open_positions env = inr ps →
  tick env seen st = (r, st') →
  Forall (λ row, Trade.action row = CLOSE) (new_trades st st')
  ∧ match r with
    | inl _ => (Trade.ticket <$> new_trades st st')
                 `prefix_of` elements (detect_closes seen (ticket_set ps))
    | inr cur => cur = ticket_set ps
                 ∧ Trade.ticket <$> new_trades st st'
                   = elements (detect_closes seen (ticket_set ps))
    end.
Proof.
  intros Hps H. unfold tick in H. rewrite Hps in H. cbn [lift] in H.
  rewrite (bind_inr _ _ st ps st) in H by done.
  bind_cases H as Hu Hk.
  - apply upsert_positions_trades in Hu.
    rewrite (new_trades_app st st' []) by (by rewrite Hu, app_nil_r).
    split; [constructor | apply prefix_nil].
  - apply upsert_positions_trades in Hu. unfold process_closed_tickets in Hk.
    bind_cases Hk as Hp Hret.
    + apply for_each_close_rows in Hp as [_ (added & Hr & Hall & Htl)].
      rewrite Hu in Hr. by rewrite (new_trades_app _ _ _ Hr).
    + apply for_each_close_rows in Hp as [_ (added & Hr & Hall & Htl)].
      rewrite Hu in Hr. inversion Hret; subst.
      by rewrite (new_trades_app _ _ _ Hr).
Qed.

(** A tick whose fetch raised stores nothing. *)
Lemma tick_fetch_fault env seen st e :
  get_open_positions env = inl e → tick env seen st = (inl e, st).
Proof. intros H. unfold tick. by rewrite H. Qed.

Lemma tick_upsert_fault env seen st ps e :
  get_open_positions env = inr ps → upsert_fault env = Some e →
  tick env seen st = (inl e, st).
Proof.
  intros Hps Hup. unfold tick, bind, upsert_positions. by rewrite Hps, Hup.
Qed.

(** A write to [trades] that times out for a ticket due to be closed
    makes the tick raise. *)
Lemma for_each_append_fault env (l : list Ticket) st t e :
  t ∈ l → append_fault env t = Some e →
  ∃ e' st', for_each l (λ t, bind (lift (history_deals_get env t))
                                 (λ d, append_trade env (close_trade t d))) st
            = (inl e', st').
Proof.
  intros Hin Hf. revert st. induction l as [|x l IH]; intros st; [by inversion Hin|].
  cbn [for_each].
  destruct (bind (lift (history_deals_get env x))
              (λ d, append_trade env (close_trade x d)) st) as [[e1|[]] st1] eqn:Hx.
  - exists e1, st1. by apply bind_inl.
  - apply elem_of_cons in Hin as [<-|Hin].
    + exfalso. revert Hx. unfold bind, lift, raise, ret, append_trade.
      destruct (history_deals_get env t); [discriminate|]. cbn. by rewrite Hf.
    + destruct (IH Hin st1) as (e' & st' & Hrest). exists e', st'.
      by rewrite (bind_inr _ _ _ _ _ Hx).
Qed.

Lemma tick_append_fault env seen st ps t e :
  get_open_positions env = inr ps →
  t ∈ detect_closes seen (ticket_set ps) → append_fault env t = Some e →
  ∃ e', (tick env seen st).1 = inl e'.
Proof.
  intros Hps Ht Hf. unfold tick. rewrite Hps. cbn [lift].
  rewrite (bind_inr _ _ st ps st) by done.
  destruct (upsert_positions env ps st) as [[e1|[]] st1] eqn:Hu.
  - exists e1. by rewrite (bind_inl _ _ _ _ _ Hu).
  - rewrite (bind_inr _ _ _ _ _ Hu). unfold process_closed_tickets.
    destruct (for_each_append_fault env (elements (detect_closes seen (ticket_set ps)))
                st1 t e) as (e' & st' & Hfe); [by apply elem_of_elements | done |].
    exists e'. by rewrite (bind_inl _ _ _ _ _ Hfe).
Qed.

Lemma iteration_state s env :
  (iteration s env).2 = (tick env s.1 s.2).2.
Proof. unfold iteration. by destruct (tick env s.1 s.2) as [[?|?] ?]. Qed.

Lemma iteration_raised s env e :
  (tick env s.1 s.2).1 = inl e → (iteration s env).1 = s.1.
Proof. unfold iteration. destruct (tick env s.1 s.2) as [[?|?] ?]; [done|discriminate]. Qed.

Lemma iteration_returned s env cur :
  (tick env s.1 s.2).1 = inr cur → (iteration s env).1 = cur.
Proof.
  unfold iteration. destruct (tick env s.1 s.2) as [[?|?] ?]; cbn; [discriminate|congruence].
Qed.






End BridgeLoop.

(** ** Starting the loop, and what it writes to the trade log *)

Section BridgeStart.
Import Bridge.

Lemma main_loop_one env st :
  main_loop [env] st = iteration (initial_seen_open_tickets, st) env.
Proof. reflexivity. Qed.

Lemma nothing_closed_from_empty (X : gset Ticket) :
  elements (detect_closes initial_seen_open_tickets X) = [].
Proof.
  unfold detect_closes, initial_seen_open_tickets.
  rewrite empty_difference_L. apply elements_empty.
Qed.

Lemma first_tick_appends_nothing env st :
  new_trades st (main_loop [env] st).2 = [].
Proof.
  rewrite main_loop_one, iteration_state. cbn [fst snd].
  destruct (get_open_positions env) as [e|ps] eqn:Hps.
  - rewrite (tick_fetch_fault env _ st e Hps). cbn [snd].
    unfold new_trades. apply drop_all.
  - destruct (tick env initial_seen_open_tickets st) as [r st'] eqn:Ht. cbn [snd].
    pose proof (tick_rows env _ st ps r st' Hps Ht) as [_ Hr].
    rewrite nothing_closed_from_empty in Hr.
    destruct r as [e|cur].
    + apply prefix_nil_inv in Hr. by apply fmap_nil_inv in Hr.
    + destruct Hr as [_ Hr]. by apply fmap_nil_inv in Hr.
Qed.

(** C1 (amended). The loop starts from the empty baseline whatever the
    store holds, so the first tick after a start appends no trade
    event: no ticket gets a CLOSE event from it, open in the store or
    not. *)
Theorem first_tick_emits_no_event env st :
  (main_loop [] st).1 = ∅
  ∧ new_trades st (main_loop [env] st).2 = []
  ∧ ∀ t, Design.close_events_for t (new_trades st (main_loop [env] st).2) = [].
Proof.
  split_and!; [reflexivity | apply first_tick_appends_nothing |].
  intros t. by rewrite first_tick_appends_nothing.
Qed.

(** C1 as stated fails: ticket 100 is in the store's position table
    and has an OPEN row without a CLOSE; the loop is started and the
    terminal reports no open position; no CLOSE row is written. *)
Lemma restart_misses_close :
  100 ∈ Design.startup_baseline Sample.store_with_100
  ∧ (100 ∉ initial_seen_open_tickets)
  ∧ new_trades Sample.store_with_100
      (main_loop [Sample.calm [] 50] Sample.store_with_100).2 = []
  ∧ ¬ Design.restart_safe Sample.store_with_100 (Sample.calm [] 50).
Proof.
  assert (Hin : 100 ∈ Design.startup_baseline Sample.store_with_100).
  { unfold Design.startup_baseline. apply elem_of_union. left.
    unfold ticket_set. cbn. set_solver. }
  split_and!; [done | set_solver | apply first_tick_appends_nothing |].
  intros Hsafe. specialize (Hsafe 100 [] eq_refl Hin).
  rewrite first_tick_appends_nothing in Hsafe. cbn in Hsafe.
  assert (100 ∉ ticket_set []) as Hout by (unfold ticket_set; cbn; set_solver).
  specialize (Hsafe Hout). discriminate.
Qed.

(** Every row any tick appends is a CLOSE row. *)
Lemma tick_appends_only_closes env seen st :
  Forall (λ row, Trade.action row = CLOSE) (new_trades st (tick env seen st).2).
Proof.
  destruct (get_open_positions env) as [e|ps] eqn:Hps.
  - rewrite (tick_fetch_fault env seen st e Hps). cbn [snd].
    unfold new_trades. rewrite drop_all. constructor.
  - destruct (tick env seen st) as [r st'] eqn:Ht.
    by destruct (tick_rows env seen st ps r st' Hps Ht).
Qed.

(** C4 at baseline {} and snapshot [{ticket: 1}]: ticket 1 is in
    currentTickets − baseline, the tick completes and the baseline
    becomes {1}, and no trade row is written: there is no OPEN event. *)
Theorem new_ticket_gets_no_open_event :
  let s := main_loop [Sample.calm [Sample.position 1] 10] empty_store in
  1 ∈ ticket_set [Sample.position 1] ∖ initial_seen_open_tickets
  ∧ s.1 = ticket_set [Sample.position 1]
  ∧ positions s.2 = [Sample.position 1]
  ∧ new_trades empty_store s.2 = [].
Proof.
  cbn zeta. split_and!.
  - unfold ticket_set, initial_seen_open_tickets. cbn. set_solver.
  - vm_compute. reflexivity.
  - reflexivity.
  - apply first_tick_appends_nothing.
Qed.


End BridgeStart.

(** ** The retry wrapper *)

Section Retry.
Import RetryController.
Context {T E : Type}.
Variable operation : nat → E + T.
Variable draw : nat → Q.
Variable policy : Policy.

Local Abbreviation run_from r k := (attempts_from operation draw policy r k).
Local Abbreviation nominal k := (backoff policy k).

Local Open Scope nat_scope.

Lemma backoff_nonneg k :
  (0 <= baseDelay policy)%Q → (0 <= maxDelay policy)%Q → (0 <= nominal k)%Q.
Proof.
  intros Hb Hm. unfold backoff. apply Q.min_glb; [done|].
  apply Qmult_le_0_compat; [done|]. by apply Qpower_0_le.
Qed.

(** A jittered delay stays within ±jitterFraction of the nominal one. *)
Lemma delay_within_jitter k :
  (0 <= jitterFraction policy)%Q → (0 <= baseDelay policy)%Q → (0 <= maxDelay policy)%Q →
  (-1 <= draw k)%Q → (draw k <= 1)%Q →
  (nominal k * (1 - jitterFraction policy) <= delay draw policy k)%Q
  ∧ (delay draw policy k <= nominal k * (1 + jitterFraction policy))%Q.
Proof.
  intros Hj Hb Hm Hlo Hhi. pose proof (backoff_nonneg k Hb Hm) as Hn.
  unfold delay. generalize dependent (nominal k). intros b Hn.
  pose proof (Qmult_le_0_compat _ _ Hn Hj) as Hbj.
  assert (Hup : (0 <= draw k + 1)%Q) by lra.
  assert (Hdn : (0 <= 1 - draw k)%Q) by lra.
  pose proof (Qmult_le_0_compat _ _ Hbj Hup).
  pose proof (Qmult_le_0_compat _ _ Hbj Hdn).
  split; lra.
Qed.

(** The loop from attempt [k] with [r] retries left. *)
Lemma attempts_from_spec r : ∀ k,
  length (run_from r k).2 ≤ r
  ∧ (∀ i d, (run_from r k).2 !! i = Some d → d = delay draw policy (k + i))
  ∧ match (run_from r k).1 with
    | Success v =>
        operation (k + length (run_from r k).2) = inr v
        ∧ ∀ j, k ≤ j < k + length (run_from r k).2 → ∃ c, operation j = inl c
    | Failure c a =>
        a = k + r ∧ length (run_from r k).2 = r ∧ operation (k + r) = inl c
        ∧ ∀ j, k ≤ j ≤ k + r → ∃ c', operation j = inl c'
    end.
Proof.
  induction r as [|r IH]; intros k; cbn [attempts_from].
  - destruct (operation k) as [c|v] eqn:Hk; cbn.
    + split_and!; [lia | by intros [|?] ? | lia | done | by rewrite Nat.add_0_r |].
      intros j Hj. replace j with k by lia. eauto.
    + rewrite Nat.add_0_r. split_and!; [lia | by intros [|?] ? | done |].
      intros j Hj. lia.
  - destruct (operation k) as [c|v] eqn:Hk; cbn.
    + specialize (IH (S k)).
      destruct (run_from r (S k)) as [res slept]. cbn in IH |- *.
      destruct IH as (Hlen & Hd & Hres). split_and!; [lia | |].
      * intros [|i] d Hi; cbn in Hi.
        -- inversion Hi. by rewrite Nat.add_0_r.
        -- rewrite (Hd i d Hi). f_equal. lia.
      * destruct res as [v|c' a].
        -- destruct Hres as [Hv Hf]. split.
           ++ rewrite <- Hv. f_equal. lia.
           ++ intros j Hj. destruct (decide (j = k)) as [->|Hne]; [eauto|].
              apply Hf. lia.
        -- destruct Hres as (-> & Hl & Hc & Hf). split_and!; [lia | lia | |].
           ++ rewrite <- Hc. f_equal. lia.
           ++ intros j Hj. destruct (decide (j = k)) as [->|Hne]; [eauto|].
              apply Hf. lia.
    + rewrite Nat.add_0_r. split_and!; [lia | by intros [|?] ? | done |].
      intros j Hj. lia.
Qed.

(** C7. [execute] calls the operation at most [maxAttempts] times; the
    delay slept after failed attempt k (before attempt k+1) is
    [min(maxDelay, baseDelay * 2^(k-1))] moved by at most
    ±jitterFraction; it always returns a [Result]: a [Success] from the
    first attempt that succeeded, or, every attempt having failed,
    [Failure] with the last cause and [attempts = maxAttempts]. *)
Theorem execute_contract :
  (0 <= jitterFraction policy)%Q → (0 <= baseDelay policy)%Q → (0 <= maxDelay policy)%Q →
  (∀ k, (-1 <= draw k)%Q ∧ (draw k <= 1)%Q) →
  let result := (execute operation draw policy).1 in
  let slept := (execute operation draw policy).2 in
  let made := attempts_made operation draw policy in
  made ≤ Pos.to_nat (maxAttempts policy)
  ∧ (∀ k d, slept !! k = Some d →
       (nominal (S k) * (1 - jitterFraction policy) <= d)%Q
       ∧ (d <= nominal (S k) * (1 + jitterFraction policy))%Q)
  ∧ match result with
    | Success v =>
        operation made = inr v ∧ ∀ j, 1 ≤ j < made → ∃ c, operation j = inl c
    | Failure cause attempts =>
        attempts = Pos.to_nat (maxAttempts policy)
        ∧ made = Pos.to_nat (maxAttempts policy)
        ∧ operation (Pos.to_nat (maxAttempts policy)) = inl cause
        ∧ ∀ j, 1 ≤ j ≤ Pos.to_nat (maxAttempts policy) → ∃ c, operation j = inl c
    end.
Proof.
  intros Hj Hb Hm Hdraw result slept made.
  subst result slept made. unfold attempts_made, execute.
  pose proof (Pos2Nat.is_pos (maxAttempts policy)) as Hpos.
  set (r := Pos.to_nat (maxAttempts policy) - 1).
  replace (Pos.to_nat (maxAttempts policy)) with (1 + r) by lia.
  destruct (attempts_from_spec r 1) as (Hlen & Hd & Hres).
  split_and!; [lia | |].
  - intros k d Hk. rewrite (Hd k d Hk). cbn [Nat.add].
    destruct (Hdraw (S k)). by apply delay_within_jitter.
  - destruct (run_from r 1).1 as [v|c a]; cbn [Nat.add] in *.
    + done.
    + destruct Hres as (-> & -> & Hc & Hf). done.
Qed.

End Retry.

Section RetryWitness.
Import RetryController.

Lemma execute_contract_witness :
  (0 <= jitterFraction Sample.three_attempts)%Q
  ∧ (0 <= baseDelay Sample.three_attempts)%Q
  ∧ (0 <= maxDelay Sample.three_attempts)%Q
  ∧ (∀ k : nat, (-1 <= 0)%Q ∧ (0 <= 1)%Q)
  ∧ (attempts_made Sample.flaky (λ _, 0%Q) Sample.three_attempts ≤ 3)%nat.
Proof.
  assert (Hj : (0 <= jitterFraction Sample.three_attempts)%Q) by (by vm_compute).
  assert (Hb : (0 <= baseDelay Sample.three_attempts)%Q) by (by vm_compute).
  assert (Hm : (0 <= maxDelay Sample.three_attempts)%Q) by (by vm_compute).
  assert (Hd : ∀ k : nat, (-1 <= 0)%Q ∧ (0 <= 1)%Q) by (intros _; split; by vm_compute).
  split_and!; [done..|].
  exact (proj1 (execute_contract Sample.flaky (λ _, 0%Q) Sample.three_attempts Hj Hb Hm Hd)).
Defined.

End RetryWitness.

(** * Further properties of the code *)

(** ** Lookups in the positions list across realtime events *)

Section PositionsLookups.
Import SupabaseClient UseLivePositions LivePositions.

Local Abbreviation tickets l := (Position.ticket <$> l).
Local Abbreviation on e n o := {| eventType := e; new := n; old := o |}.

Lemma find_ticket_cons t p (l : list Position.t) :
  find_ticket t (p :: l) = if bool_decide (Position.ticket p = t) then Some p else find_ticket t l.
Proof. reflexivity. Qed.

Lemma find_ticket_Some t (l : list Position.t) p :
  find_ticket t l = Some p → p ∈ l ∧ Position.ticket p = t.
Proof.
  induction l as [|x l IH]; [discriminate|].
  rewrite find_ticket_cons. case_bool_decide as Hx.
  - intros [= ->]. split; [left | done].
  - intros H. destruct (IH H). split; [by right | done].
Qed.

Lemma find_ticket_None t (l : list Position.t) :
  find_ticket t l = None ↔ t ∉ tickets l.
Proof.
  induction l as [|x l IH]; [split; [intros _ H; inversion H | done]|].
  rewrite find_ticket_cons, fmap_cons, not_elem_of_cons. case_bool_decide as Hx.
  - split; [discriminate | intros [Hne _]; congruence].
  - rewrite IH. split; [intros H; split; [congruence | done] | tauto].
Qed.

Lemma find_ticket_app t (l k : list Position.t) :
  find_ticket t (l ++ k)
  = match find_ticket t l with Some p => Some p | None => find_ticket t k end.
Proof.
  induction l as [|x l IH]; [done|].
  rewrite <- app_comm_cons, !find_ticket_cons. by case_bool_decide.
Qed.

Lemma find_ticket_filter_ne t k (l : list Position.t) :
  t ≠ k → find_ticket t (filter (λ p, Position.ticket p ≠ k) l) = find_ticket t l.
Proof.
  intros Hne. induction l as [|x l IH]; [done|].
  rewrite filter_cons, find_ticket_cons.
  destruct (decide (Position.ticket x ≠ k)) as [Hx|Hx].
  - rewrite find_ticket_cons. by rewrite IH.
  - rewrite IH. case_bool_decide; [|done]. exfalso. apply Hx. congruence.
Qed.

Lemma find_ticket_filter_eq k (l : list Position.t) :
  find_ticket k (filter (λ p, Position.ticket p ≠ k) l) = None.
Proof.
  apply find_ticket_None. intros (p & Hk & Hp)%list_elem_of_fmap.
  apply list_elem_of_filter in Hp as [Hne _]. congruence.
Qed.

Lemma filter_absent_ticket k (l : list Position.t) :
  k ∉ tickets l → filter (λ p, Position.ticket p ≠ k) l = l.
Proof.
  induction l as [|x l IH]; [done|].
  rewrite fmap_cons, not_elem_of_cons. intros [Hne Hl].
  rewrite filter_cons.
  destruct (decide (Position.ticket x ≠ k)) as [_|Hn]; [|exfalso; apply Hn; congruence].
  by rewrite IH.
Qed.

Lemma replace_absent_ticket (n : Position.t) (l : list Position.t) :
  Position.ticket n ∉ tickets l →
  (λ pos, if bool_decide (Position.ticket pos = Position.ticket n) then n else pos) <$> l = l.
Proof.
  induction l as [|x l IH]; [done|].
  rewrite !fmap_cons, not_elem_of_cons. intros [Hne Hl].
  rewrite IH by done. case_bool_decide; [congruence | done].
Qed.

Lemma find_ticket_replace t (n : Position.t) (l : list Position.t) :
  find_ticket t ((λ pos, if bool_decide (Position.ticket pos = Position.ticket n)
                         then n else pos) <$> l)
  = if bool_decide (t = Position.ticket n)
    then (λ _, n) <$> find_ticket t l
    else find_ticket t l.
Proof.
  induction l as [|x l IH]; [by case_bool_decide|].
  rewrite fmap_cons, !find_ticket_cons, IH.
  repeat case_bool_decide; subst; try done; congruence.
Qed.

(** X1. INSERT never overwrites: afterwards the entry found for the
    incoming ticket is the one that was already listed, or the new
    record if there was none; lookups of other tickets are unchanged. *)
Theorem insert_then_find (prev : list Position.t) (n o : Position.t) :
  find_ticket (Position.ticket n) (handleRealtimeUpdate (on "INSERT" n o) prev)
    = Some (default n (find_ticket (Position.ticket n) prev))
  ∧ ∀ t, t ≠ Position.ticket n →
      find_ticket t (handleRealtimeUpdate (on "INSERT" n o) prev) = find_ticket t prev.
Proof.
  rewrite handle_INSERT.
  destruct (some_ticket (Position.ticket n) prev) eqn:Hex.
  - split; [|done]. apply some_ticket_spec in Hex.
    destruct (find_ticket (Position.ticket n) prev) eqn:Hf; [done|].
    by apply find_ticket_None in Hf.
  - assert (Hnone : find_ticket (Position.ticket n) prev = None).
    { apply find_ticket_None. intros Hin%some_ticket_spec. congruence. }
    split.
    + rewrite find_ticket_app, Hnone. cbn. by rewrite bool_decide_eq_true_2.
    + intros t Ht. rewrite find_ticket_app. destruct (find_ticket t prev); [done|].
      cbn. by rewrite bool_decide_eq_false_2.
Qed.

(** X2. UPDATE keeps the length of the list; an UPDATE for a ticket that
    is not listed is dropped (the list is unchanged); for a listed
    ticket the lookup afterwards gives the new record, and lookups of
    other tickets are unchanged. *)
Theorem update_then_find (prev : list Position.t) (n o : Position.t) :
  let after := handleRealtimeUpdate (on "UPDATE" n o) prev in
  length after = length prev
  ∧ ((Position.ticket n ∈ tickets prev ∧ find_ticket (Position.ticket n) after = Some n)
     ∨ ((Position.ticket n ∉ tickets prev) ∧ after = prev))
  ∧ ∀ t, t ≠ Position.ticket n → find_ticket t after = find_ticket t prev.
Proof.
  cbn zeta. rewrite handle_UPDATE. split_and!.
  - apply length_fmap.
  - destruct (decide (Position.ticket n ∈ tickets prev)) as [Hin|Hout].
    + left. split; [done|]. rewrite find_ticket_replace, bool_decide_eq_true_2 by done.
      destruct (find_ticket (Position.ticket n) prev) eqn:Hf; [done|].
      by apply find_ticket_None in Hf.
    + right. split; [done|]. by apply replace_absent_ticket.
  - intros t Ht. by rewrite find_ticket_replace, bool_decide_eq_false_2.
Qed.

(** X3. After DELETE no entry is found for the deleted ticket, lookups
    of other tickets are unchanged, and deleting a ticket that is not
    listed changes nothing. *)
Theorem delete_then_find (prev : list Position.t) (n o : Position.t) :
  let after := handleRealtimeUpdate (on "DELETE" n o) prev in
  find_ticket (Position.ticket o) after = None
  ∧ (∀ t, t ≠ Position.ticket o → find_ticket t after = find_ticket t prev)
  ∧ (find_ticket (Position.ticket o) prev = None ↔ after = prev).
Proof.
  cbn zeta. rewrite handle_DELETE. split_and!.
  - apply find_ticket_filter_eq.
  - intros t Ht. by apply find_ticket_filter_ne.
  - split.
    + intros H%find_ticket_None. by apply filter_absent_ticket.
    + intros H. rewrite <- H. apply find_ticket_filter_eq.
Qed.

(** X4. INSERT of a ticket that is not listed, then DELETE of that
    ticket, gives back the list as it was, and the INSERT alone makes it
    one longer. *)
Theorem insert_then_delete (prev : list Position.t) (n o : Position.t) :
  Position.ticket n ∉ tickets prev →
  handleRealtimeUpdate (on "DELETE" o n) (handleRealtimeUpdate (on "INSERT" n o) prev) = prev
  ∧ length (handleRealtimeUpdate (on "INSERT" n o) prev) = S (length prev).
Proof.
  intros Hout. rewrite handle_INSERT, handle_DELETE.
  destruct (some_ticket (Position.ticket n) prev) eqn:Hex.
  { apply some_ticket_spec in Hex. done. }
  split.
  - rewrite filter_app, filter_absent_ticket by done.
    rewrite filter_cons, filter_nil. destruct (decide _) as [Hne|_]; [done|].
    apply app_nil_r.
  - rewrite length_app. cbn. lia.
Qed.

Lemma insert_then_delete_witness :
  (Position.ticket (Sample.position 3) ∉ tickets [Sample.position 1; Sample.position 2])
  ∧ handleRealtimeUpdate (on "DELETE" (Sample.position 9) (Sample.position 3))
      (handleRealtimeUpdate (on "INSERT" (Sample.position 3) (Sample.position 9))
         [Sample.position 1; Sample.position 2])
    = [Sample.position 1; Sample.position 2].
Proof.
  assert (H : Position.ticket (Sample.position 3) ∉ tickets [Sample.position 1; Sample.position 2]).
  { cbn. rewrite !not_elem_of_cons. split_and!; [done | done | apply not_elem_of_nil]. }
  split; [exact H|].
  exact (proj1 (insert_then_delete [Sample.position 1; Sample.position 2]
                  (Sample.position 3) (Sample.position 9) H)).
Defined.

(** X5. In a list with pairwise-distinct tickets, DELETE of a listed
    ticket removes exactly one entry. *)
Theorem delete_removes_one (prev : list Position.t) (n o : Position.t) :
  NoDup (tickets prev) → Position.ticket o ∈ tickets prev →
  S (length (handleRealtimeUpdate (on "DELETE" n o) prev)) = length prev.
Proof.
  rewrite handle_DELETE. induction prev as [|x l IH]; intros Hnd Hin; [by inversion Hin|].
  rewrite fmap_cons in Hnd, Hin. apply NoDup_cons in Hnd as [Hx Hnd].
  rewrite filter_cons. destruct (decide (Position.ticket x ≠ Position.ticket o)) as [Hne|Heq].
  - rewrite !length_cons. f_equal. apply IH; [done|].
    apply elem_of_cons in Hin as [Hin|Hin]; [congruence|done].
  - apply dec_stable in Heq. rewrite Heq in Hx.
    by rewrite filter_absent_ticket.
Qed.

Lemma delete_removes_one_witness :
  NoDup (tickets [Sample.position 1; Sample.position 2])
  ∧ Position.ticket (Sample.position 2) ∈ tickets [Sample.position 1; Sample.position 2]
  ∧ S (length (handleRealtimeUpdate (on "DELETE" (Sample.position 9) (Sample.position 2))
                 [Sample.position 1; Sample.position 2])) = 2%nat.
Proof.
  assert (Hnd : NoDup (tickets [Sample.position 1; Sample.position 2])).
  { cbn. apply NoDup_cons. split; [|apply NoDup_singleton].
    intros H%list_elem_of_singleton. discriminate. }
  assert (Hin : Position.ticket (Sample.position 2)
                ∈ tickets [Sample.position 1; Sample.position 2]).
  { cbn. right. left. }
  split_and!; [exact Hnd | exact Hin |].
  exact (delete_removes_one [Sample.position 1; Sample.position 2]
           (Sample.position 9) (Sample.position 2) Hnd Hin).
Defined.

End PositionsLookups.

(** ** The positions hook: fetches, events and derived hooks *)

Section PositionsHook.
Import SupabaseClient UseLivePositions LivePositions.

Local Abbreviation tickets l := (Position.ticket <$> l).

(** X6. After [fetchData] the hook is never loading. An error reported
    by the store does not reach the hook's error state: the list is
    emptied and [error] is null, as for an answer without data; only a
    rejected request sets [error], and then the list is kept. *)
Theorem fetchData_outcomes (s : State) (r : Response (list Position.t)) (reason : string) :
  let resolved := fetchData (Return r) s in
  let rejected := fetchData (Throw reason) s in
  loading resolved = false ∧ loading rejected = false
  ∧ LivePositions.error resolved = None
  ∧ positions resolved
    = match SupabaseClient.error r with Some _ => [] | None => default [] (data r) end
  ∧ positions rejected = positions s
  ∧ LivePositions.error rejected = Some reason.
Proof.
  cbn zeta. unfold fetchData, fetchPositions. cbn.
  destruct (SupabaseClient.error r); cbn; done.
Qed.

Lemma step_keeps_tickets_distinct s ev :
  distinct_answer ev → NoDup (tickets (positions s)) → NoDup (tickets (positions (step s ev))).
Proof.
  intros Hev Hnd. destruct ev as [q|q|q|payload]; cbn.
  - unfold fetchData, fetchPositions.
    destruct q as [r|reason]; cbn in *; [|done]. destruct (SupabaseClient.error r); cbn; [constructor | done].
  - unfold refetch, fetchData, fetchPositions.
    destruct q as [r|reason]; cbn in *; [|done]. destruct (SupabaseClient.error r); cbn; [constructor | done].
  - unfold poll. destruct (loading s); [done|]. unfold fetchData, fetchPositions.
    destruct q as [r|reason]; cbn in *; [|done]. destruct (SupabaseClient.error r); cbn; [constructor | done].
  - by apply handle_NoDup.
Qed.

(** X7. Whatever the order of fetches, refetches, polls and realtime
    payloads, as long as every resolved fetch brings rows with
    pairwise-distinct tickets, the hook's list has pairwise-distinct
    tickets. *)
Theorem hook_keeps_tickets_distinct (evs : list Event) :
  Forall distinct_answer evs → NoDup (tickets (positions (after evs))).
Proof.
  unfold after. assert (Hi : NoDup (tickets (positions initial))) by constructor.
  revert Hi. generalize initial as s.
  induction evs as [|ev evs IH]; intros s Hs Hall; [done|].
  apply Forall_cons in Hall as [Hev Hall]. cbn [foldl].
  apply IH; [|done]. by apply step_keeps_tickets_distinct.
Qed.

Lemma hook_keeps_tickets_distinct_witness :
  Forall distinct_answer
    [Fetched (Return {| data := Some [Sample.position 1]; SupabaseClient.error := None |});
     Pushed (Sample.insert_payload (Sample.position 1))]
  ∧ NoDup (tickets (positions (after
      [Fetched (Return {| data := Some [Sample.position 1]; SupabaseClient.error := None |});
       Pushed (Sample.insert_payload (Sample.position 1))]))).
Proof.
  assert (H : Forall distinct_answer
    [Fetched (Return {| data := Some [Sample.position 1]; SupabaseClient.error := None |});
     Pushed (Sample.insert_payload (Sample.position 1))]).
  { repeat constructor. cbn. intros H. inversion H. }
  split; [exact H|].
  exact (hook_keeps_tickets_distinct _ H).
Defined.

(** X8. [usePositionsBySymbol] returns a sublist of the positions; for a
    non-empty symbol it holds exactly the positions with that symbol;
    for an omitted or empty symbol it is the whole list. *)
Theorem positions_by_symbol (symbol : option string) (ps : list Position.t) :
  usePositionsBySymbol symbol ps `sublist_of` ps
  ∧ usePositionsBySymbol None ps = ps
  ∧ usePositionsBySymbol (Some "") ps = ps
  ∧ ∀ s, symbol = Some s → s ≠ "" →
      ∀ p, p ∈ usePositionsBySymbol symbol ps ↔ p ∈ ps ∧ Position.symbol p = s.
Proof.
  split_and!; [| done | done |].
  - unfold usePositionsBySymbol. destruct symbol as [s|]; [|done].
    case_decide; [done | apply sublist_filter].
  - intros s -> Hs p. unfold usePositionsBySymbol.
    rewrite decide_False by done. rewrite list_elem_of_filter. tauto.
Qed.

(** X9. [usePosition(ticket)]: [exists] is true exactly when the ticket
    is listed; the position returned is listed and has that ticket; and
    [isProfit] and [isLoss] are never both true. *)
Theorem usePosition_lookup (ticket : Ticket) (ps : list Position.t) :
  let v := usePosition ticket ps in
  (exists_ v = true ↔ ticket ∈ tickets ps)
  ∧ (∀ p, position v = Some p → p ∈ ps ∧ Position.ticket p = ticket)
  ∧ isProfit v && isLoss v = false.
Proof.
  cbn zeta. unfold usePosition. cbn. split_and!.
  - rewrite bool_decide_eq_true. destruct (find_ticket ticket ps) eqn:Hf.
    + split; [intros _ | by eauto].
      destruct (find_ticket_None ticket ps) as [_ Hn].
      destruct (decide (ticket ∈ tickets ps)); [done|]. rewrite Hn in Hf; done.
    + split; [by intros [? ?] | intros Hin]. by apply find_ticket_None in Hf.
  - intros p Hp. by apply find_ticket_Some.
  - destruct (find_ticket ticket ps) as [p|]; [|done].
    destruct (Qlt_le_dec 0 (profit_or_0 p)) as [Hpos|?]; [|done].
    destruct (Qlt_le_dec (profit_or_0 p) 0) as [Hneg|?]; [|done].
    exfalso. apply (Qlt_irrefl 0). by apply Qlt_trans with (profit_or_0 p).
Qed.

End PositionsHook.

(** ** The plan's reducer against the hook's *)

Section PlanReducer.
Import SupabaseClient UseLivePositions LivePositions.

Local Abbreviation tickets l := (Position.ticket <$> l).
Local Abbreviation on e n o := {| eventType := e; new := n; old := o |}.

Lemma plan_upsert ev n o prev :
  ev = "INSERT" ∨ ev = "UPDATE" →
  PlanLivePositions.handler (on ev n o) prev
  = filter (λ p, Position.ticket p ≠ Position.ticket n) prev ++ [n].
Proof. intros Hev. unfold PlanLivePositions.handler. cbn. by rewrite decide_True. Qed.

(** X10. The plan's handler treats INSERT and UPDATE alike, as an
    upsert: afterwards the incoming record is the last entry and the
    only one with its ticket, whatever was listed; and every event keeps
    pairwise-distinct tickets distinct. *)
Theorem plan_handler_upserts (payload : Payload Position.t) (prev : list Position.t)
    (n o : Position.t) (ev : string) :
  (NoDup (tickets prev) → NoDup (tickets (PlanLivePositions.handler payload prev)))
  ∧ (ev = "INSERT" ∨ ev = "UPDATE" →
       let after := PlanLivePositions.handler (on ev n o) prev in
       last after = Some n
       ∧ find_ticket (Position.ticket n) after = Some n
       ∧ filter (λ p, Position.ticket p = Position.ticket n) after = [n]).
Proof.
  split.
  - intros Hnd. unfold PlanLivePositions.handler. repeat case_decide; [| |done].
    + rewrite fmap_app. apply NoDup_app. split_and!.
      * rewrite tickets_filter. by apply NoDup_filter.
      * intros t Ht Ht'. cbn in Ht'. apply list_elem_of_singleton in Ht'. subst t.
        rewrite tickets_filter in Ht. apply list_elem_of_filter in Ht as [Hne _]. done.
      * apply NoDup_singleton.
    + rewrite tickets_filter. by apply NoDup_filter.
  - intros Hev. cbn zeta. rewrite plan_upsert by done. split_and!.
    + apply last_snoc.
    + rewrite find_ticket_app, find_ticket_filter_eq. cbn. by rewrite bool_decide_eq_true_2.
    + rewrite filter_app, filter_cons, filter_nil, decide_True by done.
      rewrite list_filter_filter.
      replace (filter _ prev) with (@nil Position.t); [done|].
      symmetry. destruct (filter _ prev) as [|y ys] eqn:E; [done|]. exfalso.
      assert (Hy : y ∈ y :: ys) by left. rewrite <- E in Hy.
      apply list_elem_of_filter in Hy as [[? ?] _]. done.
Qed.

Lemma plan_handler_upserts_witness :
  NoDup (tickets [Sample.position 1])
  ∧ NoDup (tickets (PlanLivePositions.handler (Sample.insert_payload (Sample.position 1))
                      [Sample.position 1])).
Proof.
  assert (H : NoDup (tickets [Sample.position 1])) by apply NoDup_singleton.
  split; [exact H|].
  exact (proj1 (plan_handler_upserts (Sample.insert_payload (Sample.position 1))
                  [Sample.position 1] (Sample.position 1) (Sample.position 1) "INSERT") H).
Defined.

Lemma replace_is_upsert_up_to_order (n : Position.t) (l : list Position.t) :
  NoDup (tickets l) → Position.ticket n ∈ tickets l →
  (λ pos, if bool_decide (Position.ticket pos = Position.ticket n) then n else pos) <$> l
  ≡ₚ filter (λ p, Position.ticket p ≠ Position.ticket n) l ++ [n].
Proof.
  induction l as [|x l IH]; intros Hnd Hin; [by inversion Hin|].
  rewrite fmap_cons in Hnd, Hin. apply NoDup_cons in Hnd as [Hx Hnd].
  rewrite fmap_cons, filter_cons. case_bool_decide as Hxn.
  - rewrite Hxn in Hx.
    destruct (decide (Position.ticket x ≠ Position.ticket n)) as [Hne|_]; [done|].
    rewrite replace_absent_ticket, filter_absent_ticket by done.
    apply Permutation_cons_append.
  - destruct (decide (Position.ticket x ≠ Position.ticket n)) as [_|Hn]; [|done].
    rewrite <- app_comm_cons. apply Permutation_skip, IH; [done|].
    apply elem_of_cons in Hin as [Hin|Hin]; [congruence|done].
Qed.

(** X11. On a list with pairwise-distinct tickets the plan's handler and
    the hook's agree on DELETE, agree on an INSERT of a ticket that is
    not listed, and give the same entries in a different order on an
    UPDATE of a listed ticket. They differ on the other two cases: the
    hook keeps the old record on an INSERT of a listed ticket and drops
    an UPDATE of an unlisted one, where the plan stores the new record. *)
Theorem plan_and_hook_handlers (prev : list Position.t) (n o : Position.t) :
  NoDup (tickets prev) →
  PlanLivePositions.handler (on "DELETE" n o) prev = handleRealtimeUpdate (on "DELETE" n o) prev
  ∧ ((Position.ticket n ∉ tickets prev) ∧
       PlanLivePositions.handler (on "INSERT" n o) prev = handleRealtimeUpdate (on "INSERT" n o) prev
       ∧ handleRealtimeUpdate (on "UPDATE" n o) prev = prev
       ∧ PlanLivePositions.handler (on "UPDATE" n o) prev = prev ++ [n]
     ∨ Position.ticket n ∈ tickets prev ∧
       PlanLivePositions.handler (on "UPDATE" n o) prev ≡ₚ handleRealtimeUpdate (on "UPDATE" n o) prev
       ∧ handleRealtimeUpdate (on "INSERT" n o) prev = prev
       ∧ find_ticket (Position.ticket n) (PlanLivePositions.handler (on "INSERT" n o) prev) = Some n).
Proof.
  intros Hnd. split; [reflexivity|].
  rewrite !plan_upsert by auto. rewrite handle_INSERT, handle_UPDATE.
  destruct (decide (Position.ticket n ∈ tickets prev)) as [Hin|Hout].
  - right. split_and!; [done | | |].
    + symmetry. by apply replace_is_upsert_up_to_order.
    + apply some_ticket_spec in Hin. by rewrite Hin.
    + rewrite find_ticket_app, find_ticket_filter_eq. cbn. by rewrite bool_decide_eq_true_2.
  - left. rewrite filter_absent_ticket, replace_absent_ticket by done.
    split_and!; [done | | done | done].
    destruct (some_ticket (Position.ticket n) prev) eqn:Hex; [|done].
    by apply some_ticket_spec in Hex.
Qed.

Lemma plan_and_hook_handlers_witness :
  NoDup (tickets [Sample.position 1; Sample.position 2])
  ∧ PlanLivePositions.handler (on "DELETE" (Sample.position 1) (Sample.position 2))
      [Sample.position 1; Sample.position 2]
    = handleRealtimeUpdate (on "DELETE" (Sample.position 1) (Sample.position 2))
        [Sample.position 1; Sample.position 2].
Proof.
  assert (Hnd : NoDup (tickets [Sample.position 1; Sample.position 2])).
  { cbn. apply NoDup_cons. split; [|apply NoDup_singleton].
    intros H%list_elem_of_singleton. discriminate. }
  split; [exact Hnd|].
  exact (proj1 (plan_and_hook_handlers [Sample.position 1; Sample.position 2]
                  (Sample.position 1) (Sample.position 2) Hnd)).
Defined.

End PlanReducer.

(** ** The trades hook: derived lists, the realtime window, trades by ticket *)

Section TradesHook.
Import SupabaseClient UseLiveTrades LiveTrades.

(** X12. [openTrades] and [closeTrades] split the list: each keeps the
    order of [trades], one holds only OPEN trades and the other only
    CLOSE trades, and their lengths add up to [totalTrades]. *)
Theorem open_and_close_split (all : list Trade.t) :
  openTrades all `sublist_of` all ∧ closeTrades all `sublist_of` all
  ∧ Forall (λ t, Trade.action t = OPEN) (openTrades all)
  ∧ Forall (λ t, Trade.action t = CLOSE) (closeTrades all)
  ∧ (length (openTrades all) + length (closeTrades all))%nat = totalTrades all.
Proof.
  unfold openTrades, closeTrades, totalTrades. split_and!.
  - apply sublist_filter.
  - apply sublist_filter.
  - apply Forall_forall. intros t Ht. by apply list_elem_of_filter in Ht as [? _].
  - apply Forall_forall. intros t Ht. by apply list_elem_of_filter in Ht as [? _].
  - induction all as [|t l IH]; [done|].
    rewrite !filter_cons. destruct (Trade.action t) eqn:Ha.
    + rewrite decide_True, decide_False by done. cbn. lia.
    + rewrite decide_False, decide_True by done. cbn. lia.
Qed.

(** Keeping the first [L] entries of a list, as [slice(0, L)] does. *)
Local Abbreviation keep L l := (take (JS.entries L (length l)) l).

Lemma keep_app_keep {A} (L : JS.number) (a b : list A) :
  JS.nonneg L → keep L (a ++ keep L b) = keep L (a ++ b).
Proof.
  intros HL. destruct L as [q| | |]; cbn in HL |- *; try done.
  - rewrite !take_app, take_take. do 2 f_equal. lia.
  - by rewrite !firstn_all.
Qed.

Lemma handle_insert_keep (L : JS.number) (n o : Trade.t) (prev : list Trade.t) :
  JS.nonneg L →
  handleRealtimeUpdate L {| eventType := "INSERT"; new := n; old := o |} prev
  = keep L (n :: prev).
Proof.
  intros HL. unfold handleRealtimeUpdate. cbn [eventType new].
  rewrite decide_True by done. by apply (slice_from_0 (n :: prev)).
Qed.

Lemma pushed_cons L p ps prev :
  pushed L (p :: ps) prev = pushed L ps (handleRealtimeUpdate L p prev).
Proof. reflexivity. Qed.

(** X13. With a limit [L >= 0], after any run of realtime payloads the
    list is unchanged if none of them was an INSERT; otherwise it is the
    first [L] entries of the inserted trades, newest first, followed by
    the list as it was: a most-recent-first window. Payloads with
    another event type are ignored. *)
Theorem pushed_is_window (limit : JS.number) (payloads : list (Payload Trade.t))
    (prev : list Trade.t) :
  JS.nonneg limit →
  let inserted := new <$> filter (λ p, eventType p = "INSERT") payloads in
  pushed limit payloads prev
  = match inserted with
    | [] => prev
    | _ => keep limit (reverse inserted ++ prev)
    end.
Proof.
  intros HL. cbn zeta. revert prev.
  induction payloads as [|p ps IH]; intros prev; [done|].
  rewrite pushed_cons, filter_cons, IH.
  destruct (decide (eventType p = "INSERT")) as [Hins|Hother].
  - destruct p as [ev n o]. cbn in Hins. subst ev.
    rewrite handle_insert_keep by done. rewrite fmap_cons. cbn [new].
    destruct (new <$> filter _ ps) as [|x xs] eqn:E.
    + by rewrite reverse_singleton.
    + rewrite keep_app_keep by done. rewrite (reverse_cons (x :: xs) n), <- app_assoc. done.
  - unfold handleRealtimeUpdate. by rewrite decide_False.
Qed.

Lemma pushed_is_window_witness :
  JS.nonneg (JS.Finite 2)
  ∧ pushed (JS.Finite 2)
      [Sample.insert_payload (Sample.trade 1 6 OPEN 10);
       Sample.insert_payload (Sample.trade 2 6 CLOSE 20);
       Sample.insert_payload (Sample.trade 3 7 OPEN 30)] []
    = [Sample.trade 3 7 OPEN 30; Sample.trade 2 6 CLOSE 20].
Proof.
  assert (H2 : JS.nonneg (JS.Finite 2)) by (cbn; unfold Qle; cbn; lia).
  split; [exact H2|].
  exact (pushed_is_window (JS.Finite 2)
           [Sample.insert_payload (Sample.trade 1 6 OPEN 10);
            Sample.insert_payload (Sample.trade 2 6 CLOSE 20);
            Sample.insert_payload (Sample.trade 3 7 OPEN 30)] [] H2).
Defined.

Lemma find_action_Some a (l : list Trade.t) t :
  List.find (λ t, bool_decide (Trade.action t = a)) l = Some t → t ∈ l ∧ Trade.action t = a.
Proof.
  intros [Hin Ha]%find_some. split; [by apply list_elem_of_In | by apply bool_decide_eq_true in Ha].
Qed.

Lemma find_action_is_Some a (l : list Trade.t) :
  is_Some (List.find (λ t, bool_decide (Trade.action t = a)) l)
  ↔ ∃ t, t ∈ l ∧ Trade.action t = a.
Proof.
  split.
  - intros [t Ht]. exists t. by apply find_action_Some.
  - intros (t & Hin & Ha).
    destruct (List.find _ l) as [x|] eqn:Hf; [by eexists|]. exfalso.
    apply list_elem_of_In in Hin.
    pose proof (find_none _ _ Hf t Hin) as Hn. cbn in Hn.
    by rewrite bool_decide_eq_true_2 in Hn.
Qed.

(** X14. [useTradesByTicket(ticket)]: [trades] are exactly the listed
    trades of that ticket; [openTrade] and [closeTrade], when present,
    are listed trades of that ticket with that action; and [isComplete]
    is true exactly when the list holds both an OPEN and a CLOSE trade
    of the ticket. *)
Theorem trades_by_ticket (ticket : Ticket) (all : list Trade.t) :
  let v := useTradesByTicket ticket all in
  (∀ t, t ∈ trades v ↔ t ∈ all ∧ Trade.ticket t = ticket)
  ∧ (∀ t, openTrade v = Some t → t ∈ all ∧ Trade.ticket t = ticket ∧ Trade.action t = OPEN)
  ∧ (∀ t, closeTrade v = Some t → t ∈ all ∧ Trade.ticket t = ticket ∧ Trade.action t = CLOSE)
  ∧ (isComplete v = true
     ↔ (∃ t, t ∈ all ∧ Trade.ticket t = ticket ∧ Trade.action t = OPEN)
       ∧ (∃ t, t ∈ all ∧ Trade.ticket t = ticket ∧ Trade.action t = CLOSE)).
Proof.
  cbn zeta. unfold useTradesByTicket. cbn.
  assert (Hmem : ∀ t, t ∈ filter (λ t, Trade.ticket t = ticket) all
                      ↔ t ∈ all ∧ Trade.ticket t = ticket).
  { intros t. rewrite list_elem_of_filter. tauto. }
  split_and!; [done | | |].
  - intros t [Hin Ha]%find_action_Some. apply Hmem in Hin. tauto.
  - intros t [Hin Ha]%find_action_Some. apply Hmem in Hin. tauto.
  - rewrite andb_true_iff, !bool_decide_eq_true, !find_action_is_Some.
    split; intros [(t & H1 & H2) (t' & H1' & H2')]; (split; [exists t | exists t']);
      rewrite ?Hmem in *; tauto.
Qed.

End TradesHook.

(** ** [getTimeAgo] *)

Section TimeAgo.
Import BridgeStatusHook.

(** The nested floors are one floor of the millisecond difference. *)
Lemma floors_compose (d : Z) :
  d / 1000 / 60 = d / 60000
  ∧ d / 1000 / 60 / 60 = d / 3600000
  ∧ d / 1000 / 60 / 60 / 24 = d / 86400000.
Proof. rewrite !Z.div_div by lia. done. Qed.

(** X15. For a timestamp that is not in the future, [getTimeAgo] prints
    the whole number of units elapsed, [floor(diffMs / unit)], in the
    largest unit that applies: 0 to 59 seconds, 1 to 59 minutes, 1 to 23
    hours, or at least 1 day. *)
Theorem time_ago_of_past (now past : Z) :
  past ≤ now →
  ∃ u n, getTimeAgo now (Some past) = ago n u
         ∧ n = (now - past) / unit_ms u
         ∧ match u with
           | seconds => 0 ≤ n < 60
           | minutes => 1 ≤ n < 60
           | hours => 1 ≤ n < 24
           | days => 1 ≤ n
           end.
Proof.
  intros Hle. unfold getTimeAgo. cbn zeta.
  destruct (floors_compose (now - past)) as (Hm & Hh & Hd).
  set (d := now - past) in *. assert (0 ≤ d) by (subst d; lia).
  destruct (Z.ltb_spec (d / 1000) 60) as [Hs|Hs].
  { exists seconds, (d / 1000).
    split_and!; [done | done | apply Z.div_pos; lia | done]. }
  destruct (Z.ltb_spec (d / 1000 / 60) 60) as [Hmi|Hmi].
  { exists minutes, (d / 1000 / 60).
    split_and!; [done | by rewrite Hm | apply Z.div_le_lower_bound; lia | done]. }
  destruct (Z.ltb_spec (d / 1000 / 60 / 60) 24) as [Hho|Hho].
  { exists hours, (d / 1000 / 60 / 60).
    split_and!; [done | by rewrite Hh | apply Z.div_le_lower_bound; lia | done]. }
  exists days, (d / 1000 / 60 / 60 / 24). split_and!; [done | by rewrite Hd |].
  apply Z.div_le_lower_bound; lia.
Qed.

Lemma time_ago_of_past_witness :
  0 ≤ 7200000 ∧ getTimeAgo 7200000 (Some 0) = "2 hours ago".
Proof.
  split; [lia|].
  destruct (time_ago_of_past 7200000 0 ltac:(lia)) as (u & n & _).
  reflexivity.
Defined.

(** X16. A timestamp in the future, however far, is printed in seconds,
    with a negative count. *)
Theorem time_ago_of_future (now past : Z) :
  now < past →
  getTimeAgo now (Some past) = ago ((now - past) / 1000) seconds
  ∧ (now - past) / 1000 < 0.
Proof.
  intros Hlt. assert (Hneg : (now - past) / 1000 < 0).
  { apply Z.div_lt_upper_bound; lia. }
  split; [|done]. unfold getTimeAgo. cbn zeta.
  destruct (Z.ltb_spec ((now - past) / 1000) 60); [done | lia].
Qed.

Lemma time_ago_of_future_witness :
  0 < 86400000 ∧ getTimeAgo 0 (Some 86400000) = "-86400 seconds ago".
Proof.
  split; [lia|].
  exact (proj1 (time_ago_of_future 0 86400000 ltac:(lia))).
Defined.

End TimeAgo.

(** ** The bridge loop over several iterations *)

Section BridgeRuns.
Import Bridge.

Local Abbreviation rows_of st := (Schema.rows (trades st)).

(** A tick only ever adds rows at the end of [trades]. *)
Lemma tick_appends env seen st :
  rows_of (tick env seen st).2 = rows_of st ++ new_trades st (tick env seen st).2.
Proof.
  assert (Hpre : ∃ added, rows_of (tick env seen st).2 = rows_of st ++ added).
  { destruct (tick env seen st) as [r st'] eqn:Ht. cbn [snd].
    unfold tick in Ht.
    apply bind_inv in Ht as [(e & Hm & _) | (ps & st1 & Hm & Hk)].
    { exists []. rewrite app_nil_r. unfold lift, raise, ret in Hm.
      destruct (get_open_positions env); by inversion Hm. }
    assert (st1 = st) as ->.
    { unfold lift, raise, ret in Hm. destruct (get_open_positions env); by inversion Hm. }
    apply bind_inv in Hk as [(e & Hu & _) | ([] & st2 & Hu & Hk)].
    { exists []. by rewrite app_nil_r, (upsert_positions_trades _ _ _ _ _ Hu). }
    apply upsert_positions_trades in Hu.
    apply bind_inv in Hk as [(e & Hp & _) | ([] & st3 & Hp & Hret)].
    - apply for_each_close_rows in Hp as [_ (added & Hr & _)].
      exists added. rewrite Hr. by rewrite Hu.
    - apply for_each_close_rows in Hp as [_ (added & Hr & _)].
      inversion Hret; subst. exists added. rewrite Hr. by rewrite Hu. }
  destruct Hpre as [added Hadd]. by rewrite (new_trades_app _ _ _ Hadd).
Qed.

Lemma iteration_baseline s env :
  (iteration s env).1 = s.1
  ∨ ∃ ps, get_open_positions env = inr ps ∧ (iteration s env).1 = ticket_set ps.
Proof.
  destruct (tick env s.1 s.2) as [[e|cur] st'] eqn:Ht.
  - left. apply (iteration_raised s env e). by rewrite Ht.
  - right. destruct (get_open_positions env) as [e|ps] eqn:Hps.
    { rewrite (tick_fetch_fault env _ _ e Hps) in Ht. discriminate. }
    pose proof (tick_rows env _ _ ps _ st' Hps Ht) as [_ [-> _]].
    exists ps. split; [done|]. apply (iteration_returned s env). by rewrite Ht.
Qed.

(** X17. After any number of iterations the baseline is either still
    empty or exactly the ticket set of one snapshot the terminal
    returned during the run; it is never a partial or a merged set. *)
Theorem baseline_is_a_snapshot (envs : list TickEnv) (st : Store) :
  (main_loop envs st).1 = ∅
  ∨ ∃ env ps, env ∈ envs ∧ get_open_positions env = inr ps
              ∧ (main_loop envs st).1 = ticket_set ps.
Proof.
  unfold main_loop.
  assert (Hgen : ∀ s, (foldl iteration s envs).1 = s.1
                      ∨ ∃ env ps, env ∈ envs ∧ get_open_positions env = inr ps
                                  ∧ (foldl iteration s envs).1 = ticket_set ps).
  { induction envs as [|env envs IH]; intros s; [by left|]. cbn [foldl].
    destruct (IH (iteration s env)) as [Hsame | (env' & ps & Hin & Hps & Hb)].
    - rewrite Hsame. destruct (iteration_baseline s env) as [Hs | (ps & Hps & Hb)].
      + by left.
      + right. exists env, ps. split_and!; [left | done | done].
    - right. exists env', ps. split_and!; [by right | done | done]. }
  apply (Hgen (initial_seen_open_tickets, st)).
Qed.

(** X18. In a tick that got a snapshot, every row written to [trades]
    is a CLOSE row for a ticket of the baseline that is missing from
    the snapshot: a ticket in the snapshot, newly seen or seen before,
    gets no trade row. *)
Theorem snapshot_tickets_get_no_row env seen st ps :
  get_open_positions env = inr ps →
  ∀ row, row ∈ new_trades st (tick env seen st).2 →
         Trade.action row = CLOSE
         ∧ Trade.ticket row ∈ seen
         ∧ Trade.ticket row ∉ ticket_set ps.
Proof.
  intros Hps row Hrow.
  destruct (tick env seen st) as [r st'] eqn:Ht. cbn [snd] in Hrow.
  destruct (tick_rows env seen st ps r st' Hps Ht) as [Hall Hr].
  split; [by apply (proj1 (Forall_forall _ _) Hall)|].
  assert (Hin : Trade.ticket row ∈ elements (detect_closes seen (ticket_set ps))).
  { assert (Hmem : Trade.ticket row ∈ Trade.ticket <$> new_trades st st')
      by (apply list_elem_of_fmap; eauto).
    destruct r as [e|cur].
    - destruct Hr as [k Hk]. rewrite Hk, elem_of_app. by left.
    - destruct Hr as [_ <-]. done. }
  apply elem_of_elements in Hin. unfold detect_closes in Hin.
  by apply elem_of_difference in Hin.
Qed.

Lemma snapshot_tickets_get_no_row_witness :
  get_open_positions (Sample.calm [Sample.position 2] 20) = inr [Sample.position 2]
  ∧ ∀ row, row ∈ new_trades empty_store
                   (tick (Sample.calm [Sample.position 2] 20) {[1; 2]} empty_store).2 →
           Trade.action row = CLOSE
           ∧ Trade.ticket row ∈ ({[1; 2]} : gset Ticket)
           ∧ Trade.ticket row ∉ ticket_set [Sample.position 2].
Proof.
  split; [reflexivity|].
  exact (snapshot_tickets_get_no_row (Sample.calm [Sample.position 2] 20) {[1; 2]}
           empty_store [Sample.position 2] eq_refl).
Defined.





Lemma iteration_appends s env :
  rows_of (iteration s env).2 = rows_of s.2 ++ new_trades s.2 (iteration s env).2
  ∧ Forall (λ row, Trade.action row = CLOSE) (new_trades s.2 (iteration s env).2).
Proof.
  rewrite iteration_state. split; [apply tick_appends | apply tick_appends_only_closes].
Qed.

(** X20. Over a whole run the loop never removes or rewrites a stored
    trade row and never writes an OPEN row: the rows stored at the start
    are a prefix of the rows stored at the end, and every row added is a
    CLOSE row. *)
Theorem run_only_appends_closes (envs : list TickEnv) (st : Store) :
  rows_of (main_loop envs st).2 = rows_of st ++ new_trades st (main_loop envs st).2
  ∧ Forall (λ row, Trade.action row = CLOSE) (new_trades st (main_loop envs st).2).
Proof.
  unfold main_loop. generalize initial_seen_open_tickets as seen.
  assert (Hgen : ∀ s, ∃ added, rows_of (foldl iteration s envs).2 = rows_of s.2 ++ added
                               ∧ Forall (λ row, Trade.action row = CLOSE) added).
  { induction envs as [|env envs IH]; intros s; cbn [foldl].
    - exists []. by rewrite app_nil_r.
    - destruct (IH (iteration s env)) as (added & Hr & Hall).
      destruct (iteration_appends s env) as [Hr1 Hall1].
      exists (new_trades s.2 (iteration s env).2 ++ added). split.
      + by rewrite Hr, Hr1, app_assoc.
      + by apply Forall_app. }
  intros seen. destruct (Hgen (seen, st)) as (added & Hr & Hall). cbn [snd] in Hr.
  by rewrite (new_trades_app _ _ _ Hr).
Qed.

End BridgeRuns.

(** ** The bridge-status hook *)

Section BridgeStatusHookState.
Import SupabaseClient BridgeStatusState.

(** X21. When the store answers the status query with an error, the
    hook forgets the status it had: [status] becomes null, so the three
    flags are false and [lastSeenAgo] is "Unknown", while the hook's own
    [error] stays null. A rejected request keeps the status and sets
    [error]. Whatever the status, at most one of the three flags is
    true, and exactly one when a status is present. *)
Theorem status_fetch_outcomes (s : State) (data : option BridgeStatus.t)
    (e : PostgrestError) (reason : string) (now : Z) (parse : Timestamp → option Z) :
  let failed := fetchData (Return {| SupabaseClient.data := data;
                                     SupabaseClient.error := Some e |}) s in
  let rejected := fetchData (Throw reason) s in
  status failed = None ∧ BridgeStatusState.error failed = None ∧ loading failed = false
  ∧ isHealthy failed = false ∧ isOffline failed = false ∧ isError failed = false
  ∧ lastSeenAgo now parse failed = "Unknown"
  ∧ status rejected = status s ∧ BridgeStatusState.error rejected = Some reason
  ∧ loading rejected = false
  ∧ match status s with
    | Some _ => (isHealthy s && negb (isOffline s) && negb (isError s))
                || (negb (isHealthy s) && isOffline s && negb (isError s))
                || (negb (isHealthy s) && negb (isOffline s) && isError s) = true
    | None => isHealthy s || isOffline s || isError s = false
    end.
Proof.
  cbn zeta. split_and!; try reflexivity.
  unfold isHealthy, isOffline, isError, status_is.
  destruct (status s) as [b|]; [|done].
  by destruct (BridgeStatus.status b).
Qed.

End BridgeStatusHookState.
